(** * mLiquidMetal: the wave field and its chrome shader

    A shallow embedding of [struct LiquidSim] from [src/main.cpp] and the
    properties of its three member functions [AddImpulse], [Step] and
    [RenderToImage] (with the helper [SampleCubemap]).

    Conventions of the embedding:
    - a C++ [float] is an IEEE-754 binary32 value, represented by
      [spec_float] with precision 24 and maximal exponent 128; every
      arithmetic operator of the source is the correctly rounded operation
      of [SpecFloat];
    - a C++ [int] is a mathematical integer ([Z]); the development is about
      executions in which no signed overflow happens: a theorem about sizes
      or arguments that a caller chooses takes as a hypothesis that the
      [int] expressions of the code are in range ([sizes_in_range],
      [dims_in_range], [window_in_range], [impulse_in_range]);
    - a [std::vector<float>] is a [list float]; an access out of range is
      undefined behaviour in C++ and is a fault ([None]) here;
    - the member functions mutate [*this]; they are written in a state and
      fault monad and the mutation is explicit state passing;
    - [std::exp] and [powf] come from the C library, they are parameters of
      the embedding. *)

From Stdlib Require Import ZArith Lia Bool.
From Stdlib Require Import Floats.SpecFloat.
From stdpp Require Import base list.

Open Scope Z_scope.

(* ===================================================================== *)
(** * Single precision arithmetic *)
(* ===================================================================== *)

Module F32.

Definition prec : Z := 24.
Definition emax : Z := 128.

Definition float := spec_float.

Definition fadd : float -> float -> float := SFadd prec emax.
Definition fsub : float -> float -> float := SFsub prec emax.
Definition fmul : float -> float -> float := SFmul prec emax.
Definition fdiv : float -> float -> float := SFdiv prec emax.
Definition fsqrt : float -> float := SFsqrt prec emax.
Definition fneg : float -> float := SFopp.
Definition fabs : float -> float := SFabs.

(** The comparison operators of C++: false as soon as an operand is NaN. *)
Definition flt (a b : float) : bool := SFltb a b.
Definition fgt (a b : float) : bool := SFltb b a.
Definition fle (a b : float) : bool := SFleb a b.
Definition feq (a b : float) : bool := SFeqb a b.

(** Conversion of an [int] to [float] (round to nearest even). *)
Definition of_int (n : Z) : float := binary_normalize prec emax n 0 false.

(** A decimal literal [n/d] with the suffix [f]: the nearest binary32
    value.  [n] and [d] are small enough to be exact, so the one division
    rounds once. *)
Definition literal (n d : Z) : float := fdiv (of_int n) (of_int d).

Definition f0 : float := S754_zero false.
Definition f1 : float := Eval vm_compute in of_int 1.
Definition f4 : float := Eval vm_compute in of_int 4.
Definition f255 : float := Eval vm_compute in of_int 255.
Definition f0_2 : float := Eval vm_compute in literal 2 10.
Definition f0_4 : float := Eval vm_compute in literal 4 10.
Definition f0_5 : float := Eval vm_compute in literal 5 10.
Definition f0_6 : float := Eval vm_compute in literal 6 10.
Definition f0_94 : float := Eval vm_compute in literal 94 100.
Definition f0_985 : float := Eval vm_compute in literal 985 1000.

Definition is_nan (x : float) : bool :=
  match x with S754_nan => true | _ => false end.

Definition is_zero (x : float) : bool :=
  match x with S754_zero _ => true | _ => false end.

(** Finite: a zero or a number, neither an infinity nor NaN. *)
Definition is_finite (x : float) : bool :=
  match x with S754_zero _ | S754_finite _ _ _ => true | _ => false end.

(** A representable binary32 value (the mantissa and exponent are in the
    canonical form of the format). *)
Definition is_binary32 (x : float) : bool := valid_binary prec emax x.

(** The integer part of a finite value, rounded toward zero. *)
Definition ftrunc (x : float) : option Z :=
  match x with
  | S754_zero _ => Some 0
  | S754_finite s m e =>
      let a := if 0 <=? e then Zpos m * 2 ^ e else Zpos m / 2 ^ (- e) in
      Some (if s then - a else a)
  | _ => None
  end.

(** [(unsigned char) x]: the value is truncated; the conversion is
    undefined when the truncated value does not fit in 8 bits. *)
Definition to_uchar (x : float) : option Z :=
  match ftrunc x with
  | Some n => if (0 <=? n) && (n <=? 255) then Some n else None
  | None => None
  end.

(** Not NaN and not below zero: [+0], a positive number or [+inf]. *)
Definition nonneg (x : float) : bool :=
  match x with
  | S754_zero false | S754_finite false _ _ | S754_infinity false => true
  | _ => false
  end.

(** A value of the format that is [1.0f] or more, in canonical form. *)
Definition at_least_one (x : float) : bool :=
  match x with
  | S754_infinity false => true
  | S754_finite false m e => (Zpos (digits2_pos m) =? 24) && (-23 <=? e)
  | _ => false
  end.

(** The sign of what the rounding returns: never NaN. *)
Definition has_sign (sx : bool) (x : float) : Prop :=
  match x with
  | S754_zero s | S754_infinity s | S754_finite s _ _ => s = sx
  | S754_nan => False
  end.

End F32.

Import F32.

(* ===================================================================== *)
(** * A reference C library *)
(* ===================================================================== *)

(** The theorems below hold for every [expf] and [powf]; the two functions
    of this module instantiate them on concrete inputs.  They evaluate the
    power series in fixed point with 256 fractional bits and round the sum
    to binary32 once. *)
Module RefLibm.

Definition fx_bits : Z := 256.
Definition fx_one : Z := 2 ^ fx_bits.

Fixpoint exp_taylor (n : nat) (i t term acc : Z) : Z :=
  match n with
  | O => acc
  | S n' =>
      let term' := (term * t / fx_one) / i in
      exp_taylor n' (i + 1) t term' (acc + term')
  end.

(** [exp t] for [0 <= t <= 1/2], all numbers scaled by [fx_one]. *)
Definition fx_exp_small (t : Z) : Z := exp_taylor 70 1 t fx_one fx_one.

Fixpoint fx_square_n (n : nat) (y : Z) : Z :=
  match n with
  | O => y
  | S n' => fx_square_n n' (y * y / fx_one)
  end.

(** [exp t] for [0 <= t < 128]: [exp t = (exp (t / 256)) ^ 256]. *)
Definition fx_exp_pos (t : Z) : Z := fx_square_n 8 (fx_exp_small (t / 256)).

(** An argument of either sign; [None] when it is so large that the
    result is out of the range of the format. *)
Definition fx_exp (t : Z) : option Z :=
  if 128 * fx_one <=? Z.abs t then None
  else
    let y := fx_exp_pos (Z.abs t) in
    Some (if t <? 0 then fx_one * fx_one / y else y).

Definition round_exp (t : Z) : float :=
  match fx_exp t with
  | Some r => binary_normalize prec emax r (- fx_bits) false
  | None => if t <? 0 then S754_zero false else S754_infinity false
  end.

Definition expf (x : float) : float :=
  match x with
  | S754_nan => S754_nan
  | S754_infinity false => x
  | S754_infinity true => S754_zero false
  | S754_zero _ => f1
  | S754_finite s m e =>
      round_exp (Z.shiftl (if s then Zneg m else Zpos m) (e + fx_bits))
  end.

Fixpoint atanh_series (n : nat) (k z2 pw acc : Z) : Z :=
  match n with
  | O => acc
  | S n' =>
      let pw' := pw * z2 / fx_one in
      atanh_series n' (k + 2) z2 pw' (acc + pw' / k)
  end.

(** [atanh z] for [0 <= z <= 1/3]. *)
Definition fx_atanh (z : Z) : Z :=
  atanh_series 90 3 (z * z / fx_one) z z.

Definition fx_ln2 : Z := 2 * fx_atanh (fx_one / 3).

(** [ln (m * 2^e)], from [ln f = 2 atanh ((f - 1) / (f + 1))] on the
    mantissa scaled into [1, 2). *)
Definition fx_ln (m : positive) (e : Z) : Z :=
  let d := Zdigits2 (Zpos m) in
  let top := 2 ^ (d - 1) in
  let z := (Zpos m - top) * fx_one / (Zpos m + top) in
  2 * fx_atanh z + (e + d - 1) * fx_ln2.

(** [powf x y] on the inputs the shader produces: a base that is a
    number not below zero and a positive finite exponent.  Every other
    pair of inputs gives NaN here. *)
Definition powf (x y : float) : float :=
  match x, y with
  | S754_zero _, S754_finite false _ _ => S754_zero false
  | S754_finite false mx ex, S754_finite false my ey =>
      round_exp (Z.shiftl (fx_ln mx ex * Zpos my) ey)
  | _, _ => S754_nan
  end.

End RefLibm.

(* ===================================================================== *)
(** * The state and fault monad *)
(* ===================================================================== *)

Section Monad.

Context {St : Type}.

(** A computation on a state [St]: [None] is a fault (undefined
    behaviour of the source), [Some (a, s)] a result and the new state. *)
Definition M (A : Type) : Type := St -> option (A * St).

Definition ret {A} (a : A) : M A := fun s => Some (a, s).

Definition bind {A B} (c : M A) (k : A -> M B) : M B :=
  fun s => match c s with
           | Some (a, s') => k a s'
           | None => None
           end.

Definition fault {A} : M A := fun _ => None.

Definition gets {A} (f : St -> A) : M A := fun s => Some (f s, s).

Definition modify (f : St -> St) : M unit := fun s => Some (tt, f s).

(** A value that may be undefined. *)
Definition defined {A} (o : option A) : M A :=
  match o with Some a => ret a | None => fault end.

(** [n] iterations of [body], on [i], [i + 1], ... *)
Fixpoint for_loop (n : nat) (i : Z) (body : Z -> M unit) : M unit :=
  match n with
  | O => ret tt
  | S n' => bind (body i) (fun _ => for_loop n' (i + 1) body)
  end.

(** [for (int i = lo; i < hi; ++i) body], for a body that changes neither
    [i] nor the bound. *)
Definition for_range (lo hi : Z) (body : Z -> M unit) : M unit :=
  for_loop (Z.to_nat (hi - lo)) lo body.

End Monad.

Arguments M : clear implicits.

Notation "x <- c ;; k" := (bind c (fun x => k))
  (at level 62, c at next level, right associativity).
Notation "c ;;; k" := (bind c (fun _ => k))
  (at level 62, right associativity).

(** The loops shared by [Step] and [RenderToImage]:
    [for (y = 1; y < height - 1; ++y) for (x = 1; x < width - 1; ++x)],
    the two bounds being read from the state. *)
Definition for_interior {St} (dims : St -> Z * Z)
    (body : Z -> Z -> M St unit) : M St unit :=
  h <- gets (fun s => snd (dims s)) ;;
  for_range 1 (h - 1) (fun y =>
    w <- gets (fun s => fst (dims s)) ;;
    for_range 1 (w - 1) (fun x => body x y)).

(** Running a computation of a component inside a larger state. *)
Definition lift {S1 S2 A} (proj : S2 -> S1) (inj : S1 -> S2 -> S2)
    (c : M S1 A) : M S2 A :=
  fun s2 => match c (proj s2) with
            | Some (a, s1) => Some (a, inj s1 s2)
            | None => None
            end.

(* ===================================================================== *)
(** * Data *)
(* ===================================================================== *)

(** [std::vector<T>::operator[]]: defined inside the vector only. *)
Definition vec_get {A} (v : list A) (k : Z) : option A :=
  if k <? 0 then None else v !! Z.to_nat k.

Definition vec_set {A} (v : list A) (k : Z) (a : A) : option (list A) :=
  if (0 <=? k) && (k <? Z.of_nat (length v))
  then Some (<[Z.to_nat k := a]> v)
  else None.

(** raylib's [Color]: four [unsigned char] channels. *)
Module Color.
Record t : Type := mk { r : Z; g : Z; b : Z; a : Z }.
End Color.

(** raylib's [Vector2] and [Vector3]. *)
Module Vector2.
Record t : Type := mk { x : float; y : float }.
End Vector2.

Module Vector3.
Record t : Type := mk { x : float; y : float; z : float }.
End Vector3.

(** The pixels of a raylib [Image] in the format R8G8B8A8, row by row. *)
Definition Image : Type := list Color.t.

Record LiquidSim : Type := mkLiquidSim {
  width : Z;
  height : Z;
  stiffness : float;
  damping : float;
  heightField : list float;
  velocityField : list float
}.

Definition set_heightField (v : list float) (s : LiquidSim) : LiquidSim :=
  mkLiquidSim (width s) (height s) (stiffness s) (damping s)
              v (velocityField s).

Definition set_velocityField (v : list float) (s : LiquidSim) : LiquidSim :=
  mkLiquidSim (width s) (height s) (stiffness s) (damping s)
              (heightField s) v.

Definition set_damping (d : float) (s : LiquidSim) : LiquidSim :=
  mkLiquidSim (width s) (height s) (stiffness s) d
              (heightField s) (velocityField s).

(** The constructor [LiquidSim(w, h)], for [w] and [h] that are not
    negative (the size [w * h] of the two vectors is converted to an
    unsigned type in the source). *)
Definition LiquidSim_new (w h : Z) : LiquidSim :=
  mkLiquidSim w h f0_2 f0_985
              (replicate (Z.to_nat (w * h)) f0)
              (replicate (Z.to_nat (w * h)) f0).

(** What [RenderToImage] works on: the object and the image passed by
    reference. *)
Record World : Type := mkWorld { sim : LiquidSim; pixels : Image }.

Definition set_sim (s : LiquidSim) (w : World) : World :=
  mkWorld s (pixels w).

Definition set_pixels (p : Image) (w : World) : World :=
  mkWorld (sim w) p.

(* ===================================================================== *)
(** * The member functions *)
(* ===================================================================== *)

(** [int idx(int x, int y) const]. *)
Definition idx (x y : Z) : M LiquidSim Z :=
  w <- gets width ;; ret (y * w + x).

Definition read_height (k : Z) : M LiquidSim float :=
  v <- gets heightField ;; defined (vec_get v k).

Definition read_velocity (k : Z) : M LiquidSim float :=
  v <- gets velocityField ;; defined (vec_get v k).

Definition write_height (k : Z) (a : float) : M LiquidSim unit :=
  v <- gets heightField ;;
  v' <- defined (vec_set v k a) ;;
  modify (set_heightField v').

Definition write_velocity (k : Z) (a : float) : M LiquidSim unit :=
  v <- gets velocityField ;;
  v' <- defined (vec_set v k a) ;;
  modify (set_velocityField v').

Definition write_pixel (k : Z) (c : Color.t) : M World unit :=
  p <- gets pixels ;;
  p' <- defined (vec_set p k c) ;;
  modify (set_pixels p').

(** A member of the object, used from [RenderToImage]. *)
Definition on_sim {A} (c : M LiquidSim A) : M World A := lift sim set_sim c.

(** Modelled from the spec: [Clamp] is raymath's, its code is not in
    [src/]; the spec applies it as [clamp(value, 0, 1)].  raymath takes the
    lower bound when the value is below it, then the upper bound when the
    result is above it. *)
Definition Clamp (value lo hi : float) : float :=
  let result := if flt value lo then lo else value in
  if fgt result hi then hi else result.

Definition envRight : Color.t := Color.mk 200 180 160 255.
Definition envLeft : Color.t := Color.mk 160 180 200 255.
Definition envUp : Color.t := Color.mk 180 200 255 255.
Definition envDown : Color.t := Color.mk 40 40 50 255.
Definition envFront : Color.t := Color.mk 120 130 150 255.
Definition envBack : Color.t := Color.mk 80 70 60 255.

Definition SampleCubemap (n : Vector3.t) : Color.t :=
  let ax := fabs (Vector3.x n) in
  let ay := fabs (Vector3.y n) in
  let az := fabs (Vector3.z n) in
  if fgt ax ay && fgt ax az then
    (if fgt (Vector3.x n) f0 then envRight else envLeft)
  else if fgt ay az then
    (if fgt (Vector3.y n) f0 then envUp else envDown)
  else
    (if fgt (Vector3.z n) f0 then envFront else envBack).

(** The guard of [AddImpulse], which is also the range of the loops of
    [Step] and [RenderToImage]: a cell strictly inside the outer ring. *)
Definition interior (w h nx ny : Z) : bool :=
  (0 <? nx) && (nx <? w - 1) && (0 <? ny) && (ny <? h - 1).

(** Lines 100 to 104 of [RenderToImage]: the normal before it is
    normalized, and its length. *)
Definition raw_normal (hL hR hU hD : float) : Vector3.t :=
  let dx := fsub hR hL in
  let dy := fsub hD hU in
  Vector3.mk (fneg dx) (fneg dy) f1.

Definition length3 (n : Vector3.t) : float :=
  fsqrt (fadd (fadd (fmul (Vector3.x n) (Vector3.x n))
                    (fmul (Vector3.y n) (Vector3.y n)))
              (fmul (Vector3.z n) (Vector3.z n))).

(** Lines 105 to 109. *)
Definition normalize_if_positive (n : Vector3.t) : Vector3.t :=
  let len := length3 n in
  if fgt len f0 then
    Vector3.mk (fdiv (Vector3.x n) len) (fdiv (Vector3.y n) len)
               (fdiv (Vector3.z n) len)
  else n.

Definition surface_normal (hL hR hU hD : float) : Vector3.t :=
  normalize_if_positive (raw_normal hL hR hU hD).

(** [chrome * 0.4f + c * 0.6f] for two [unsigned char] operands. *)
Definition blend (chrome c : Z) : float :=
  fadd (fmul (of_int chrome) f0_4) (fmul (of_int c) f0_6).

Section LiquidSim.

(** [std::exp] on [float] and [powf]. *)
Variable expf : float -> float.
Variable powf : float -> float -> float.

(** [exp(-dist2 * 0.5f)] at the offset [(i, j)]. *)
Definition falloff (i j : Z) : float :=
  let dist2 := of_int (i * i + j * j) in
  expf (fmul (fneg dist2) f0_5).

(** The body of the loops of [AddImpulse]. *)
Definition impulse_cell (x y : Z) (amount : float) (i j : Z)
  : M LiquidSim unit :=
  let nx := x + i in
  let ny := y + j in
  w <- gets width ;;
  h <- gets height ;;
  if interior w h nx ny then
    k <- idx nx ny ;;
    old <- read_height k ;;
    write_height k (fadd old (fmul amount (falloff i j)))
  else ret tt.

Definition AddImpulse (x y : Z) (amount : float) (radius : Z)
  : M LiquidSim unit :=
  for_range (- radius) (radius + 1) (fun j =>
    for_range (- radius) (radius + 1) (fun i =>
      impulse_cell x y amount i j)).

(** The body of the first pair of loops of [Step]. *)
Definition force_cell (x y : Z) : M LiquidSim unit :=
  kc <- idx x y ;;
  center <- read_height kc ;;
  kl <- idx (x - 1) y ;;
  hl <- read_height kl ;;
  kr <- idx (x + 1) y ;;
  hr <- read_height kr ;;
  ku <- idx x (y - 1) ;;
  hu <- read_height ku ;;
  kd <- idx x (y + 1) ;;
  hd <- read_height kd ;;
  let sumNeighbors := fadd (fadd (fadd hl hr) hu) hd in
  k <- gets stiffness ;;
  let force := fmul (fsub sumNeighbors (fmul f4 center)) k in
  kv <- idx x y ;;
  v <- read_velocity kv ;;
  write_velocity kv (fadd v force).

(** The body of the second pair of loops of [Step]. *)
Definition integrate_cell (x y : Z) : M LiquidSim unit :=
  kv <- idx x y ;;
  v <- read_velocity kv ;;
  write_velocity kv (fmul v f0_94) ;;;
  kh <- idx x y ;;
  old <- read_height kh ;;
  kv' <- idx x y ;;
  v' <- read_velocity kv' ;;
  write_height kh (fadd old v').

Definition Step : M LiquidSim unit :=
  for_interior (fun s => (width s, height s)) force_cell ;;;
  for_interior (fun s => (width s, height s)) integrate_cell.

(** Lines 111 to 117: the lit, clamped and lifted intensity, times 255. *)
Definition chrome_level (n : Vector3.t) (lightDir : Vector2.t) : float :=
  let ndotl := fadd (fadd (fmul (Vector3.x n) (Vector2.x lightDir))
                          (fmul (Vector3.y n) (Vector2.y lightDir)))
                    (fmul (Vector3.z n) f1) in
  let base := f0_4 in
  let intensity := fadd base (fmul ndotl f0_6) in
  let intensity := Clamp intensity f0 f1 in
  let boosted := powf intensity f0_6 in
  fmul boosted f255.

(** One pixel: from the normal to the four channels.  A conversion to
    [unsigned char] of a value that does not fit is a fault. *)
Definition shade (n : Vector3.t) (lightDir : Vector2.t)
  : option Color.t :=
  match to_uchar (chrome_level n lightDir) with
  | Some chrome =>
      let env := SampleCubemap n in
      match to_uchar (blend chrome (Color.r env)),
            to_uchar (blend chrome (Color.g env)),
            to_uchar (blend chrome (Color.b env)) with
      | Some finalR, Some finalG, Some finalB =>
          Some (Color.mk finalR finalG finalB 180)
      | _, _, _ => None
      end
  | None => None
  end.

(** The body of the loops of [RenderToImage]. *)
Definition render_cell (lightDir : Vector2.t) (x y : Z) : M World unit :=
  kl <- on_sim (idx (x - 1) y) ;;
  hL <- on_sim (read_height kl) ;;
  kr <- on_sim (idx (x + 1) y) ;;
  hR <- on_sim (read_height kr) ;;
  ku <- on_sim (idx x (y - 1)) ;;
  hU <- on_sim (read_height ku) ;;
  kd <- on_sim (idx x (y + 1)) ;;
  hD <- on_sim (read_height kd) ;;
  c <- defined (shade (surface_normal hL hR hU hD) lightDir) ;;
  k <- on_sim (idx x y) ;;
  write_pixel k c.

Definition RenderToImage (lightDir : Vector2.t) : M World unit :=
  for_interior (fun w => (width (sim w), height (sim w)))
               (render_cell lightDir).

End LiquidSim.


(* ===================================================================== *)
(** * Specifications *)
(* ===================================================================== *)

(** [runs c s Q]: from [s] the computation [c] ends without a fault, with
    a result and a state that satisfy [Q]. *)
Definition runs {St A} (c : M St A) (s : St) (Q : A -> St -> Prop) : Prop :=
  exists a s', c s = Some (a, s') /\ Q a s'.

(** [keeps proj c]: whenever [c] ends, the part [proj] of the state is
    what it was. *)
Definition keeps {St A B} (proj : St -> B) (c : M St A) : Prop :=
  forall s a s', c s = Some (a, s') -> proj s' = proj s.

(** ** Cells of a box, in the order of the loops *)

Section Box.

Variables xlo xhi ylo yhi : Z.

Definition in_box (cx cy : Z) : bool :=
  (xlo <=? cx) && (cx <? xhi) && (ylo <=? cy) && (cy <? yhi).

(** The cells of the box that the loops have passed when the counters
    are at row [Y], column [X]. *)
Definition visited (Y X cx cy : Z) : bool :=
  in_box cx cy && ((cy <? Y) || ((cy =? Y) && (cx <? X))).

End Box.

(** ** Grids stored row by row *)

(** [grid_is w h v f]: the vector [v] has [w * h] elements and holds
    [f cx cy] at the index of the cell [(cx, cy)]. *)
Definition grid_is {A} (w h : Z) (v : list A) (f : Z -> Z -> A) : Prop :=
  length v = Z.to_nat (w * h) /\
  forall cx cy, 0 <= cx < w -> 0 <= cy < h ->
                vec_get v (cy * w + cx) = Some (f cx cy).

(** ** The wave field *)

(** The height and the velocity of a cell; [0.0f] outside the vectors. *)
Definition hat (s : LiquidSim) (cx cy : Z) : float :=
  default f0 (vec_get (heightField s) (cy * width s + cx)).

Definition vat (s : LiquidSim) (cx cy : Z) : float :=
  default f0 (vec_get (velocityField s) (cy * width s + cx)).

(** The object as the constructor makes it: two vectors of
    [width * height] elements. *)
Record wf (s : LiquidSim) : Prop := mk_wf {
  wf_width : 0 <= width s;
  wf_height : 0 <= height s;
  wf_heightField : length (heightField s) = Z.to_nat (width s * height s);
  wf_velocityField :
    length (velocityField s) = Z.to_nat (width s * height s)
}.

Definition same_config (s0 s : LiquidSim) : Prop :=
  width s = width s0 /\ height s = height s0 /\
  stiffness s = stiffness s0 /\ damping s = damping s0.

(** [force] at a cell, from the heights of a state. *)
Definition force (s : LiquidSim) (x y : Z) : float :=
  let sumNeighbors :=
    fadd (fadd (fadd (hat s (x - 1) y) (hat s (x + 1) y)) (hat s x (y - 1)))
         (hat s x (y + 1)) in
  fmul (fsub sumNeighbors (fmul f4 (hat s x y))) (stiffness s).

Definition forces_done (s0 : LiquidSim) (D : Z -> Z -> bool)
    (s : LiquidSim) : Prop :=
  same_config s0 s /\
  heightField s = heightField s0 /\
  grid_is (width s0) (height s0) (velocityField s)
    (fun cx cy => if D cx cy then fadd (vat s0 cx cy) (force s0 cx cy)
                  else vat s0 cx cy).

Definition integrate_done (s1 : LiquidSim) (D : Z -> Z -> bool)
    (s : LiquidSim) : Prop :=
  same_config s1 s /\
  grid_is (width s1) (height s1) (velocityField s)
    (fun cx cy => if D cx cy then fmul (vat s1 cx cy) f0_94
                  else vat s1 cx cy) /\
  grid_is (width s1) (height s1) (heightField s)
    (fun cx cy => if D cx cy
                  then fadd (hat s1 cx cy) (fmul (vat s1 cx cy) f0_94)
                  else hat s1 cx cy).

(** The velocity and the height that one call of [Step] gives an interior
    cell, from the state before the call. *)
Definition step_velocity (s0 : LiquidSim) (cx cy : Z) : float :=
  fmul (fadd (vat s0 cx cy) (force s0 cx cy)) f0_94.

Definition step_height (s0 : LiquidSim) (cx cy : Z) : float :=
  fadd (hat s0 cx cy) (step_velocity s0 cx cy).

Definition Step_post (s0 s : LiquidSim) : Prop :=
  same_config s0 s /\
  grid_is (width s0) (height s0) (velocityField s)
    (fun cx cy => if interior (width s0) (height s0) cx cy
                  then step_velocity s0 cx cy else vat s0 cx cy) /\
  grid_is (width s0) (height s0) (heightField s)
    (fun cx cy => if interior (width s0) (height s0) cx cy
                  then step_height s0 cx cy else hat s0 cx cy).

(** The square of cells that the loops of [AddImpulse] visit. *)
Definition in_window (x y radius cx cy : Z) : bool :=
  (x - radius <=? cx) && (cx <=? x + radius) &&
  (y - radius <=? cy) && (cy <=? y + radius).


Section AddImpulseSpec.

Variable expf : float -> float.
Variables (x y : Z) (amount : float) (radius : Z).
Variable s0 : LiquidSim.

(** The height of the cell [(cx, cy)] once [AddImpulse] has added to
    it. *)
Definition impulse_height (cx cy : Z) : float :=
  fadd (hat s0 cx cy) (fmul amount (falloff expf (cx - x) (cy - y))).

Definition impulse_done (D : Z -> Z -> bool) (s : LiquidSim) : Prop :=
  same_config s0 s /\
  velocityField s = velocityField s0 /\
  grid_is (width s0) (height s0) (heightField s)
    (fun cx cy =>
       if D (cx - x) (cy - y) && interior (width s0) (height s0) cx cy
       then impulse_height cx cy else hat s0 cx cy).

Definition AddImpulse_post (s : LiquidSim) : Prop :=
  same_config s0 s /\
  velocityField s = velocityField s0 /\
  grid_is (width s0) (height s0) (heightField s)
    (fun cx cy =>
       if in_window x y radius cx cy
          && interior (width s0) (height s0) cx cy
       then impulse_height cx cy else hat s0 cx cy).

End AddImpulseSpec.

(** ** The shader *)

Section RenderSpec.

Variable powf : float -> float -> float.
Variable lightDir : Vector2.t.
Variable s0 : LiquidSim.
Variable p0 : Z -> Z -> Color.t.

(** The normal that [RenderToImage] computes at a cell. *)
Definition normal_at (cx cy : Z) : Vector3.t :=
  surface_normal (hat s0 (cx - 1) cy) (hat s0 (cx + 1) cy)
                 (hat s0 cx (cy - 1)) (hat s0 cx (cy + 1)).

(** Every conversion of the frame is defined. *)
Definition shadeable : Prop :=
  forall cx cy, interior (width s0) (height s0) cx cy = true ->
                is_Some (shade powf (normal_at cx cy) lightDir).

Definition pixel_at (cx cy : Z) : Color.t :=
  default (p0 cx cy) (shade powf (normal_at cx cy) lightDir).

Definition render_done (D : Z -> Z -> bool) (w : World) : Prop :=
  sim w = s0 /\
  grid_is (width s0) (height s0) (pixels w)
    (fun cx cy => if D cx cy then pixel_at cx cy else p0 cx cy).

End RenderSpec.

(* ===================================================================== *)
(** * The range of [int] *)
(* ===================================================================== *)

(** The embedding computes on [Z].  It is the code's arithmetic as long as
    every [int] expression that the code evaluates has its value in the
    range of a 32-bit [int]; beyond, the code has a signed overflow, which
    is undefined behaviour.  The predicates below say of the arguments
    that a caller chooses that every such expression is in range; the
    theorems about those arguments take them as hypotheses. *)

Definition INT_MIN : Z := -2147483648.
Definition INT_MAX : Z := 2147483647.

Definition in_int (n : Z) : Prop := INT_MIN <= n <= INT_MAX.

(** [width] and [height] are [int]s, and so are [width - 1] and
    [height - 1], the bounds of the loops of [Step] and [RenderToImage]
    and of the test of [AddImpulse]. *)
Definition dims_in_range (w h : Z) : Prop :=
  in_int w /\ in_int h /\ in_int (w - 1) /\ in_int (h - 1).

(** Moreover [w * h], which the constructor computes and which bounds
    every [idx(x, y)] of a cell of the grid, is an [int]. *)
Definition sizes_in_range (w h : Z) : Prop :=
  dims_in_range w h /\ in_int (w * h).

(** The loops of [AddImpulse]: [-radius], the counters [i] and [j] up to
    [radius + 1], where the loops stop, and [x + i] and [y + j] for every
    [i] and [j] from [-radius] to [radius]. *)
Definition window_in_range (x y radius : Z) : Prop :=
  in_int (- radius) /\ in_int (radius + 1) /\
  in_int (x - radius) /\ in_int (x + radius) /\
  in_int (y - radius) /\ in_int (y + radius).

(** Moreover [i * i + j * j], which is at most [2 * radius * radius]. *)
Definition impulse_in_range (x y radius : Z) : Prop :=
  window_in_range x y radius /\ in_int (2 * (radius * radius)).

(** ** Sequences of calls *)

(** A call of one of the two member functions that change the field. *)
Inductive call : Type :=
| CallAddImpulse (x y : Z) (amount : float) (radius : Z)
| CallStep.

Definition run_call (expf : float -> float) (c : call) : M LiquidSim unit :=
  match c with
  | CallAddImpulse x y amount radius => AddImpulse expf x y amount radius
  | CallStep => Step
  end.

Fixpoint run_calls (expf : float -> float) (cs : list call)
  : M LiquidSim unit :=
  match cs with
  | [] => ret tt
  | c :: cs' => run_call expf c ;;; run_calls expf cs'
  end.

(** A call whose arguments keep every [int] expression of its body in
    range; [Step] has no argument. *)
Definition call_in_range (c : call) : Prop :=
  match c with
  | CallAddImpulse x y _ radius => impulse_in_range x y radius
  | CallStep => True
  end.

(** A cell of the outer ring of a [w] by [h] grid. *)
Definition on_ring (w h cx cy : Z) : Prop :=
  0 <= cx < w /\ 0 <= cy < h /\
  (cx = 0 \/ cx = w - 1 \/ cy = 0 \/ cy = h - 1).

(** Two cells next to each other along an axis. *)
Definition adjacent (x0 y0 nx ny : Z) : Prop :=
  (nx = x0 - 1 /\ ny = y0) \/ (nx = x0 + 1 /\ ny = y0) \/
  (nx = x0 /\ ny = y0 - 1) \/ (nx = x0 /\ ny = y0 + 1).

(** A field with the height [c] at the cell [(x0, y0)], flat and at rest
    everywhere else. *)
Definition single_bump (s : LiquidSim) (x0 y0 : Z) (c : float) : Prop :=
  forall cx cy, 0 <= cx < width s -> 0 <= cy < height s ->
    hat s cx cy = (if (cx =? x0) && (cy =? y0) then c else f0) /\
    vat s cx cy = f0.

(** The velocity that one [Step] gives an interior neighbour of a bump of
    height [c], and the height it gives the bump, for the stiffness [k]. *)
Definition spread_velocity (c k : float) : float :=
  fmul (fadd f0 (fmul c k)) f0_94.

Definition bump_height (c k : float) : float :=
  fadd c (fmul (fadd f0 (fmul (fsub f0 (fmul f4 c)) k)) f0_94).

(** A 3 by 3 field as the constructor configures it, with the height
    [1.0f] at its only interior cell. *)
Definition bump3 : LiquidSim :=
  mkLiquidSim 3 3 f0_2 f0_985
    [f0; f0; f0; f0; f1; f0; f0; f0; f0] (replicate 9 f0).

(** A 5 by 5 field as the constructor configures it, with the height
    [1.0f] at its centre. *)
Definition bump5 : LiquidSim :=
  mkLiquidSim 5 5 f0_2 f0_985
    (<[12%nat := f1]> (replicate 25 f0)) (replicate 25 f0).

(** The square of the distance between two cells. *)
Definition dist2 (x0 y0 cx cy : Z) : Z :=
  (cx - x0) * (cx - x0) + (cy - y0) * (cy - y0).

(** [expf] at the arguments that an impulse of radius 2 gives it. *)
Definition expf_at (expf : float -> float) (k : Z) : float :=
  expf (fmul (fneg (of_int k)) f0_5).

(** What the falloff needs of [expf]: it is [1.0f] at zero and, on the
    squared distances from 0 to 8, a positive value of the format that
    decreases. *)
Definition expf_decreases (expf : float -> float) : Prop :=
  expf_at expf 0 = f1 /\
  forall k, 0 <= k <= 8 ->
    is_binary32 (expf_at expf k) = true /\
    flt f0 (expf_at expf k) = true /\
    forall k', k < k' <= 8 ->
      flt (expf_at expf k') (expf_at expf k) = true.

(** The red, green and blue channels of the six colours of
    [SampleCubemap]. *)
Definition env_channels : list Z :=
  [200; 180; 160; 255; 40; 50; 120; 130; 150; 80; 70; 60].

(** The blend of two channels is between [0.0f] and [255.0f], and its
    conversion to [unsigned char] is defined. *)
Definition blend_fits (chrome c : Z) : bool :=
  fle f0 (blend chrome c) && fle (blend chrome c) f255 &&
  bool_decide (is_Some (to_uchar (blend chrome c))).

(** [bump3] and an image of its size cleared to black, as the main loop
    clears it; the same after [RenderToImage] with the light straight
    above. *)
Definition black : Color.t := Color.mk 0 0 0 255.

Definition blank3 : World := mkWorld bump3 (replicate 9 black).

Definition rendered3 : World :=
  mkWorld bump3 (<[4%nat := Color.mk 174 180 192 180]> (replicate 9 black)).

Definition light_above : Vector2.t := Vector2.mk f0 f0.

(** ** Mirror images of a field *)




(** The normal of a cell whose neighbours are level: [(-0, -0, 1)]. *)
Definition normal_up : Vector3.t :=
  Vector3.mk (S754_zero true) (S754_zero true) f1.

(* ===================================================================== *)
(** * The main loop *)
(* ===================================================================== *)

Definition simWidth : Z := 200.
Definition simHeight : Z := 200.

(** [(int) x]: the value is truncated; the conversion is undefined when
    the truncated value does not fit in 32 bits. *)
Definition to_int (x : float) : option Z :=
  match ftrunc x with
  | Some n => if (- 2 ^ 31 <=? n) && (n <=? 2 ^ 31 - 1) then Some n else None
  | None => None
  end.

(** The locals of [main] that drive the status bar. *)
Record Ui : Type := mkUi {
  idleTime : float;
  statusAlpha : Z;
  targetAlpha : Z;
  lastMouse : Vector2.t
}.

(** The start of [main]: nothing shown, nothing to show. *)
Definition Ui_start (mouse : Vector2.t) : Ui := mkUi f0 0 0 mouse.

(** IDLE DETECTION: the new [idleTime] and [targetAlpha]. *)
Definition idle_detect (ui : Ui) (curMouse : Vector2.t) (frameTime : float)
  : float * Z :=
  if negb (feq (Vector2.x curMouse) (Vector2.x (lastMouse ui)))
     || negb (feq (Vector2.y curMouse) (Vector2.y (lastMouse ui)))
  then (f0, 0)
  else
    let idle := fadd (idleTime ui) frameTime in
    (idle, if fgt idle f1 then 255 else targetAlpha ui).

(** FADE ANIMATION: the new [statusAlpha].  The two [int] operands and
    the bounds are converted to [float] for [Clamp], the result back to
    [unsigned char]. *)
Definition fade (statusAlpha targetAlpha : Z) : option Z :=
  if statusAlpha <? targetAlpha then
    to_uchar (Clamp (of_int (statusAlpha + 5)) (of_int 0) (of_int 255))
  else if targetAlpha <? statusAlpha then
    to_uchar (Clamp (of_int (statusAlpha - 5)) (of_int 0) (of_int 255))
  else Some statusAlpha.

(** Lines 182 to 198 in one frame. *)
Definition ui_step (ui : Ui) (curMouse : Vector2.t) (frameTime : float)
  : option Ui :=
  let '(idle, target) := idle_detect ui curMouse frameTime in
  match fade (statusAlpha ui) target with
  | Some alpha => Some (mkUi idle alpha target curMouse)
  | None => None
  end.

(** The frames of a run: one mouse position and one frame time each. *)
Fixpoint ui_run (ui : Ui) (frames : list (Vector2.t * float)) : option Ui :=
  match frames with
  | [] => Some ui
  | (curMouse, frameTime) :: rest =>
      match ui_step ui curMouse frameTime with
      | Some ui' => ui_run ui' rest
      | None => None
      end
  end.

(** [fade] again and again toward a target that does not change. *)
Fixpoint fade_n (n : nat) (statusAlpha targetAlpha : Z) : option Z :=
  match n with
  | O => Some statusAlpha
  | S n' =>
      match fade statusAlpha targetAlpha with
      | Some a => fade_n n' a targetAlpha
      | None => None
      end
  end.

(** What holds of the locals of the status bar at every frame. *)
Definition ui_ok (ui : Ui) : Prop :=
  (targetAlpha ui = 0 \/ targetAlpha ui = 255) /\
  0 <= statusAlpha ui <= 255 /\
  statusAlpha ui mod 5 = 0.

(** Two worlds with the same object and images of the same size. *)
Definition same_but_pixels (w1 w2 : World) : Prop :=
  sim w1 = sim w2 /\ length (pixels w1) = length (pixels w2).

(** Two runs that both fault, or both end with the same result in two
    such worlds. *)
Definition agree {A} (r1 r2 : option (A * World)) : Prop :=
  match r1, r2 with
  | None, None => True
  | Some (a1, w1), Some (a2, w2) => a1 = a2 /\ same_but_pixels w1 w2
  | _, _ => False
  end.

(** MOUSE INTERACTION: the cell under the pointer,
    [(int)(curMouse.x * (float)simWidth / (float)drawW)] and the same
    along [y]. *)
Definition mouse_cell (curMouse : Vector2.t) (drawW drawH : Z)
  : option (Z * Z) :=
  let sx := fdiv (fmul (Vector2.x curMouse) (of_int simWidth))
                 (of_int drawW) in
  let sy := fdiv (fmul (Vector2.y curMouse) (of_int simHeight))
                 (of_int drawH) in
  match to_int sx, to_int sy with
  | Some ix, Some iy => Some (ix, iy)
  | _, _ => None
  end.

(** The test of [main] before it calls [AddImpulse]. *)
Definition click_guard (ix iy : Z) : bool :=
  (1 <? ix) && (ix <? simWidth - 1) && (1 <? iy) && (iy <? simHeight - 1).

(** The amount [-1.5f] and the default radius of [AddImpulse]. *)
Definition click_amount : float := fneg (literal 15 10).
Definition default_radius : Z := 3.

(** Modelled from the spec: [ImageClearBackground] is raylib's, its code
    is not in [src/]; the spec has the caller clear the image before the
    shader runs.  Every pixel of the image becomes the colour. *)
Definition ImageClearBackground (c : Color.t) : M World unit :=
  modify (fun w => set_pixels (replicate (length (pixels w)) c) w).

Section Tick.

Variable expf : float -> float.
Variable powf : float -> float -> float.

(** MOUSE INTERACTION in one frame. *)
Definition click (mouseDown : bool) (curMouse : Vector2.t) (drawW drawH : Z)
  : M World unit :=
  if mouseDown then
    c <- defined (mouse_cell curMouse drawW drawH) ;;
    if click_guard (fst c) (snd c) then
      on_sim (AddImpulse expf (fst c) (snd c) click_amount default_radius)
    else ret tt
  else ret tt.

(** What one turn of the loop of [main] does to the field and to the
    image: lines 204 to 220. *)
Definition tick (mouseDown : bool) (curMouse : Vector2.t) (drawW drawH : Z)
    (lightDir : Vector2.t) : M World unit :=
  click mouseDown curMouse drawW drawH ;;;
  on_sim Step ;;;
  ImageClearBackground black ;;;
  RenderToImage powf lightDir.

End Tick.

(* ===================================================================== *)
(** * Facts of single precision arithmetic *)
(* ===================================================================== *)

(** The literals of the source, as bit patterns of the format: [0.94f] is
    [0x3F70A3D7], [0.985f] is [0x3F7C28F6], [0.2f] is [0x3E4CCCCD], [0.4f]
    is [0x3ECCCCCD], [0.6f] is [0x3F19999A]. *)
Example literals_of_the_source :
  f0_94 = S754_finite false 0xF0A3D7 (-24) /\
  f0_985 = S754_finite false 0xFC28F6 (-24) /\
  f0_2 = S754_finite false 0xCCCCCD (-26) /\
  f0_4 = S754_finite false 0xCCCCCD (-25) /\
  f0_6 = S754_finite false 0x99999A (-24) /\
  f0_5 = S754_finite false 0x800000 (-24) /\
  f1 = S754_finite false 0x800000 (-23) /\
  f4 = S754_finite false 0x800000 (-21) /\
  f255 = S754_finite false 0xFF0000 (-16).
Proof. repeat split. Qed.

Lemma digits2_pos_bounds p :
  2 ^ (Zpos (digits2_pos p) - 1) <= Zpos p < 2 ^ Zpos (digits2_pos p).
Proof.
  induction p as [p IH | p IH |]; cbn [digits2_pos].
  - rewrite Pos2Z.inj_succ.
    replace (Z.succ (Zpos (digits2_pos p)) - 1)
      with (Z.succ (Zpos (digits2_pos p) - 1)) by lia.
    rewrite !Z.pow_succ_r by lia. lia.
  - rewrite Pos2Z.inj_succ.
    replace (Z.succ (Zpos (digits2_pos p)) - 1)
      with (Z.succ (Zpos (digits2_pos p) - 1)) by lia.
    rewrite !Z.pow_succ_r by lia. lia.
  - cbn. lia.
Qed.

Lemma digits2_pos_unique p d :
  2 ^ (d - 1) <= Zpos p < 2 ^ d -> Zpos (digits2_pos p) = d.
Proof.
  intros [Hlo Hhi]. pose proof (digits2_pos_bounds p) as [Hlo' Hhi'].
  assert (0 < d) as Hd.
  { destruct (Z_lt_le_dec 0 d) as [|Hle]; [assumption |].
    exfalso. destruct (Z.eq_dec d 0) as [-> |].
    - cbn in Hhi. lia.
    - rewrite Z.pow_neg_r in Hhi by lia. lia. }
  destruct (Z.lt_trichotomy (Zpos (digits2_pos p)) d) as [Hlt | [Heq | Hgt]];
    [exfalso | exact Heq | exfalso].
  - assert (2 ^ Zpos (digits2_pos p) <= 2 ^ (d - 1))
      by (apply Z.pow_le_mono_r; lia). lia.
  - assert (2 ^ d <= 2 ^ (Zpos (digits2_pos p) - 1))
      by (apply Z.pow_le_mono_r; lia). lia.
Qed.

Lemma shr_1_m mrs : 0 <= shr_m mrs -> shr_m (shr_1 mrs) = shr_m mrs / 2.
Proof.
  destruct mrs as [m r s]. cbn [shr_m]. intros Hm.
  destruct m as [| [p | p |] | p]; cbn [shr_1 shr_m].
  - reflexivity.
  - apply Z.div_unique with 1; lia.
  - apply Z.div_unique with 0; lia.
  - reflexivity.
  - lia.
Qed.

Lemma iter_shr_1_m p : forall mrs,
  0 <= shr_m mrs ->
  shr_m (SpecFloat.iter_pos shr_1 p mrs) = shr_m mrs / 2 ^ Zpos p.
Proof.
  induction p as [p IH | p IH |]; intros mrs Hm; cbn [SpecFloat.iter_pos].
  - assert (0 <= shr_m (shr_1 mrs)) as H1.
    { rewrite shr_1_m by assumption. apply Z.div_pos; lia. }
    assert (0 <= shr_m (SpecFloat.iter_pos shr_1 p (shr_1 mrs))) as H2.
    { rewrite IH by assumption. apply Z.div_pos; lia. }
    rewrite IH, IH, shr_1_m by assumption.
    rewrite !Z.div_div by lia.
    replace (Zpos p~1) with (1 + Zpos p + Zpos p) by lia.
    rewrite !Z.pow_add_r by lia. rewrite Z.pow_1_r, Z.mul_assoc. reflexivity.
  - assert (0 <= shr_m (SpecFloat.iter_pos shr_1 p mrs)) as H2.
    { rewrite IH by assumption. apply Z.div_pos; lia. }
    rewrite IH, IH by assumption.
    rewrite !Z.div_div by lia.
    replace (Zpos p~0) with (Zpos p + Zpos p) by lia.
    rewrite !Z.pow_add_r by lia. reflexivity.
  - rewrite shr_1_m by assumption. reflexivity.
Qed.

(** [shr] divides the mantissa and adds to the exponent. *)
Lemma shr_spec mrs e n :
  0 <= shr_m mrs -> 0 <= n ->
  shr_m (fst (shr mrs e n)) = shr_m mrs / 2 ^ n /\
  snd (shr mrs e n) = e + n.
Proof.
  intros Hm Hn. destruct n as [| p | p]; cbn [shr fst snd]; [| | lia].
  - rewrite Z.pow_0_r, Z.div_1_r. lia.
  - split; [apply iter_shr_1_m; assumption | reflexivity].
Qed.

Lemma shr_record_of_loc_m m l : shr_m (shr_record_of_loc m l) = m.
Proof. destruct l as [| []]; reflexivity. Qed.

Lemma round_nearest_even_bounds m l :
  m <= round_nearest_even m l <= m + 1.
Proof.
  destruct l as [| []]; cbn [round_nearest_even]; try lia.
  destruct (Z.even m); lia.
Qed.

Lemma shr_fexp_spec m e l :
  0 <= m -> 0 <= fexp prec emax (Zdigits2 m + e) - e ->
  shr_m (fst (shr_fexp prec emax m e l))
  = m / 2 ^ (fexp prec emax (Zdigits2 m + e) - e) /\
  snd (shr_fexp prec emax m e l) = fexp prec emax (Zdigits2 m + e).
Proof.
  intros Hm Hk. unfold shr_fexp.
  destruct (shr_spec (shr_record_of_loc m l) e
              (fexp prec emax (Zdigits2 m + e) - e)) as [H1 H2].
  - rewrite shr_record_of_loc_m. exact Hm.
  - exact Hk.
  - rewrite H1, H2, shr_record_of_loc_m. split; [reflexivity | lia].
Qed.

Lemma shr_fexp_nonneg m e l :
  0 <= m -> 0 <= shr_m (fst (shr_fexp prec emax m e l)).
Proof.
  intros Hm. unfold shr_fexp, shr.
  destruct (fexp prec emax (Zdigits2 m + e) - e) as [| p | p];
    cbn [fst]; rewrite ?shr_record_of_loc_m; try assumption.
  rewrite iter_shr_1_m by (rewrite shr_record_of_loc_m; assumption).
  rewrite shr_record_of_loc_m. apply Z.div_pos; lia.
Qed.

Lemma binary_round_aux_sign sx m e l :
  0 <= m -> has_sign sx (binary_round_aux prec emax sx m e l).
Proof.
  intros Hm. unfold binary_round_aux.
  pose proof (shr_fexp_nonneg m e l Hm) as H1.
  destruct (shr_fexp prec emax m e l) as [mrs1 e1]. cbn [fst] in H1.
  pose proof (round_nearest_even_bounds (shr_m mrs1)
                (loc_of_shr_record mrs1)) as [Hr _].
  pose proof (shr_fexp_nonneg
                (round_nearest_even (shr_m mrs1) (loc_of_shr_record mrs1))
                e1 loc_Exact ltac:(lia)) as H2.
  destruct (shr_fexp prec emax _ e1 loc_Exact) as [mrs2 e2].
  cbn [fst] in H2.
  destruct (shr_m mrs2) as [| q | q]; [reflexivity | | lia].
  destruct (e2 <=? emax - prec); reflexivity.
Qed.

Lemma fexp_normal z : -125 <= z -> fexp prec emax z = z - 24.
Proof. unfold fexp, emin, prec, emax. lia. Qed.

Lemma binary_round_aux_at_least_one M E l :
  24 <= Zdigits2 (Zpos M) -> 1 <= Zdigits2 (Zpos M) + E ->
  at_least_one (binary_round_aux prec emax false (Zpos M) E l) = true.
Proof.
  intros Hd HE. unfold binary_round_aux.
  destruct (shr_fexp_spec (Zpos M) E l) as [H1m H1e]; [lia | |].
  { rewrite fexp_normal by lia. lia. }
  destruct (shr_fexp prec emax (Zpos M) E l) as [mrs1 e1].
  cbn [fst snd] in H1m, H1e.
  rewrite fexp_normal in H1m, H1e by lia.
  cbn [Zdigits2] in *.
  set (d := Zpos (digits2_pos M)) in *.
  pose proof (digits2_pos_bounds M) as [Hlo Hhi]. fold d in Hlo, Hhi.
  assert (2 ^ 23 <= shr_m mrs1 < 2 ^ 24) as [Hm1 Hm1'].
  { rewrite H1m. replace (d + E - 24 - E) with (d - 24) by lia.
    assert (0 < 2 ^ (d - 24)) as HK by (apply Z.pow_pos_nonneg; lia).
    replace (d - 1) with (23 + (d - 24)) in Hlo by lia.
    replace d with (24 + (d - 24)) in Hhi by lia.
    rewrite Z.pow_add_r in Hlo, Hhi by lia.
    split.
    - apply Z.div_le_lower_bound; lia.
    - apply Z.div_lt_upper_bound; lia. }
  pose proof (round_nearest_even_bounds (shr_m mrs1)
                (loc_of_shr_record mrs1)) as [Hr Hr'].
  set (m2 := round_nearest_even (shr_m mrs1) (loc_of_shr_record mrs1)) in *.
  destruct (Z.eq_dec m2 (2 ^ 24)) as [Heq | Hne].
  - (* the rounding carried into a 25th digit *)
    rewrite Heq. change (2 ^ 24) with 16777216.
    unfold shr_fexp. change (Zdigits2 16777216) with 25.
    rewrite fexp_normal by lia.
    replace (25 + e1 - 24 - e1) with 1 by lia.
    cbn [shr SpecFloat.iter_pos shr_1 shr_record_of_loc shr_m].
    destruct (e1 + 1 <=? emax - prec); [| reflexivity].
    unfold at_least_one. change (Zpos (digits2_pos 8388608)) with 24. lia.
  - assert (2 ^ 23 <= m2 < 2 ^ 24) as Hm2 by lia.
    destruct m2 as [| q | q] eqn:Em2; [lia | | lia].
    assert (Zpos (digits2_pos q) = 24) as Hdq
      by (apply digits2_pos_unique; exact Hm2).
    unfold shr_fexp. cbn [Zdigits2]. rewrite Hdq.
    rewrite fexp_normal by lia.
    replace (24 + e1 - 24 - e1) with 0 by lia.
    cbn [shr shr_record_of_loc shr_m].
    destruct (e1 <=? emax - prec); cbn [at_least_one]; [| reflexivity].
    rewrite Hdq. lia.
Qed.

Lemma binary_round_sign sx mx ex :
  has_sign sx (binary_round prec emax sx mx ex).
Proof.
  unfold binary_round.
  destruct (shl_align mx ex _) as [mz ez].
  apply binary_round_aux_sign. lia.
Qed.

Lemma binary_normalize_not_nan z e :
  is_nan (binary_normalize prec emax z e false) = false.
Proof.
  destruct z as [| p | p]; cbn [binary_normalize]; [reflexivity | |].
  - pose proof (binary_round_sign false p e) as H.
    destruct (binary_round prec emax false p e); cbn in *; tauto.
  - pose proof (binary_round_sign true p e) as H.
    destruct (binary_round prec emax true p e); cbn in *; tauto.
Qed.

Lemma has_sign_nonneg x : has_sign false x -> nonneg x = true.
Proof. destruct x as [s | s | | s m e]; cbn; intros H; subst; tauto. Qed.

Lemma fsub_finite a b :
  is_finite a = true -> is_finite b = true -> is_nan (fsub a b) = false.
Proof.
  destruct a as [sa | sa | | sa ma ea], b as [sb | sb | | sb mb eb];
    try discriminate; intros _ _; unfold fsub; cbn [SFsub].
  - destruct sa, sb; reflexivity.
  - reflexivity.
  - reflexivity.
  - apply binary_normalize_not_nan.
Qed.

Lemma fneg_not_nan x : is_nan x = false -> is_nan (SFopp x) = false.
Proof. destruct x; cbn; intros; congruence. Qed.

Lemma fmul_self_nonneg x : is_nan x = false -> nonneg (fmul x x) = true.
Proof.
  destruct x as [s | s | | s m e]; try discriminate; intros _;
    unfold fmul; cbn [SFmul]; try (destruct s; reflexivity).
  apply has_sign_nonneg. replace (xorb s s) with false by (destruct s; reflexivity).
  apply binary_round_aux_sign. lia.
Qed.

Lemma fadd_nonneg a b :
  nonneg a = true -> nonneg b = true -> nonneg (fadd a b) = true.
Proof.
  destruct a as [[] | [] | | [] ma ea], b as [[] | [] | | [] mb eb];
    try discriminate; intros _ _; unfold fadd; cbn [SFadd];
    try reflexivity.
  apply has_sign_nonneg. cbn [cond_Zopp Z.add binary_normalize].
  apply binary_round_sign.
Qed.

Lemma pos_iter_xO m d : Zpos (Pos.iter xO m d) = Zpos m * 2 ^ Zpos d.
Proof.
  induction d as [| d IH] using Pos.peano_ind.
  - cbn. lia.
  - rewrite Pos.iter_succ, Pos2Z.inj_xO, IH, Pos2Z.inj_succ.
    rewrite Z.pow_succ_r by lia. lia.
Qed.

Lemma shl_align_value mx ex ex' :
  ex' <= ex -> Zpos (fst (shl_align mx ex ex')) = Zpos mx * 2 ^ (ex - ex').
Proof.
  intros Hle. unfold shl_align.
  destruct (ex' - ex) as [| d | d] eqn:E; cbn [fst].
  - replace (ex - ex') with 0 by lia. lia.
  - lia.
  - rewrite pos_iter_xO. f_equal. f_equal. lia.
Qed.

Lemma digits_lower p k : 2 ^ k <= Zpos p -> 0 <= k -> k < Zpos (digits2_pos p).
Proof.
  intros Hk Hk0. pose proof (digits2_pos_bounds p) as [_ Hhi].
  apply (Z.pow_lt_mono_r_iff 2); lia.
Qed.

Lemma fadd_one_at_least_one s :
  nonneg s = true -> at_least_one (fadd s f1) = true.
Proof.
  destruct s as [[] | [] | | [] m e]; try discriminate; intros _;
    try reflexivity.
  unfold fadd, f1. cbn [SFadd cond_Zopp].
  set (ez := Z.min e (-23)).
  pose proof (shl_align_value m e ez ltac:(lia)) as Ha.
  pose proof (shl_align_value 8388608 (-23) ez ltac:(lia)) as Hb.
  destruct (shl_align m e ez) as [pa ea].
  destruct (shl_align 8388608 (-23) ez) as [pb eb].
  cbn [fst] in *. cbn [Z.add binary_normalize].
  assert (2 ^ (- ez) <= Zpos (pa + pb)) as Hsum.
  { rewrite Pos2Z.inj_add, Hb.
    change (Zpos 8388608) with (2 ^ 23).
    rewrite <- Z.pow_add_r by lia.
    replace (23 + (-23 - ez)) with (- ez) by lia. lia. }
  pose proof (digits_lower _ _ Hsum ltac:(lia)) as Hd.
  change (Zpos pa + Zpos pb) with (Zpos (pa + pb)).
  cbn [binary_normalize]. unfold binary_round.
  assert (shl_align (pa + pb) ez
            (fexp prec emax (Zpos (digits2_pos (pa + pb)) + ez))
          = ((pa + pb)%positive, ez)) as ->.
  { unfold shl_align. rewrite fexp_normal by lia.
    destruct (Zpos (digits2_pos (pa + pb)) + ez - 24 - ez) eqn:E;
      [reflexivity | reflexivity | lia]. }
  apply binary_round_aux_at_least_one; cbn [Zdigits2]; lia.
Qed.

Lemma fsqrt_at_least_one y :
  at_least_one y = true -> at_least_one (fsqrt y) = true.
Proof.
  destruct y as [[] | [] | | [] m e]; try discriminate; [reflexivity |].
  cbn [at_least_one]. intros Hy.
  assert (Zpos (digits2_pos m) = 24 /\ -23 <= e) as [Hd He] by lia.
  unfold fsqrt. cbn [SFsqrt]. unfold SFsqrt_core_binary.
  cbn [Zdigits2]. rewrite Hd. rewrite !Z.div2_div.
  rewrite fexp_normal by (assert (0 <= (24 + e + 1) / 2)
                            by (apply Z.div_pos; lia); lia).
  set (e' := Z.min ((24 + e + 1) / 2 - 24) (e / 2)).
  assert (-23 <= e' /\ 23 <= e - 2 * e') as [He' Hs].
  { unfold e'. split.
    - assert (1 <= (24 + e + 1) / 2)
        by (apply Z.div_le_lower_bound; lia).
      assert (-12 <= e / 2) by (apply Z.div_le_lower_bound; lia). lia.
    - pose proof (Z.mul_div_le (24 + e + 1) 2 ltac:(lia)). lia. }
  destruct (e - 2 * e') as [| p | p] eqn:Es; [lia | | lia].
  rewrite Z.shiftl_mul_pow2 by lia.
  pose proof (digits2_pos_bounds m) as [Hlo _]. rewrite Hd in Hlo.
  assert (2 ^ 46 <= Zpos m * 2 ^ Zpos p) as Hbig.
  { change (2 ^ 46) with (2 ^ 23 * 2 ^ 23).
    apply Z.mul_le_mono_nonneg; try lia.
    apply Z.pow_le_mono_r; lia. }
  pose proof (Z.sqrtrem_spec (Zpos m * 2 ^ Zpos p) ltac:(lia)) as Hsq.
  destruct (Z.sqrtrem (Zpos m * 2 ^ Zpos p)) as [q r].
  destruct Hsq as [Hq Hr].
  assert (2 ^ 23 <= q) as Hq23.
  { change (2 ^ 46) with 70368744177664 in Hbig.
    change (2 ^ 23) with 8388608. nia. }
  destruct q as [| Q | Q]; [cbn in Hq23; lia | | lia].
  pose proof (digits_lower Q 23 Hq23 ltac:(lia)) as HdQ.
  apply binary_round_aux_at_least_one; cbn [Zdigits2]; lia.
Qed.

Lemma at_least_one_le y :
  at_least_one y = true -> SFleb f1 y = true /\ SFltb f0 y = true.
Proof.
  destruct y as [[] | [] | | [] m e]; try discriminate;
    [split; reflexivity |].
  cbn [at_least_one]. intros Hy.
  assert (Zpos (digits2_pos m) = 24 /\ -23 <= e) as [Hd He] by lia.
  split; [| reflexivity].
  unfold SFleb, f1. cbn [SFcompare].
  destruct (Z.compare_spec (-23) e) as [Heq | Hlt | Hgt];
    [| reflexivity | lia].
  pose proof (digits2_pos_bounds m) as [Hlo _]. rewrite Hd in Hlo.
  change (Pos.compare_cont Eq 8388608 m) with (Pos.compare 8388608 m).
  destruct (Pos.compare_spec 8388608 m) as [H | H | H];
    [reflexivity | reflexivity |].
  change (2 ^ (24 - 1)) with 8388608 in Hlo.
  exfalso. apply Pos2Z.pos_lt_pos in H. clear - H Hlo. lia.
Qed.

Lemma shr_1_even k :
  0 <= k ->
  shr_1 {| shr_m := 2 * k; shr_r := false; shr_s := false |}
  = {| shr_m := k; shr_r := false; shr_s := false |}.
Proof. destruct k as [| p | p]; [reflexivity | reflexivity | lia]. Qed.

Lemma iter_shr_1_exact p : forall k,
  0 <= k ->
  SpecFloat.iter_pos shr_1 p
    {| shr_m := k * 2 ^ Zpos p; shr_r := false; shr_s := false |}
  = {| shr_m := k; shr_r := false; shr_s := false |}.
Proof.
  induction p as [p IH | p IH |]; intros k Hk; cbn [SpecFloat.iter_pos].
  - replace (k * 2 ^ Zpos p~1) with (2 * (k * 2 ^ Zpos p * 2 ^ Zpos p)).
    + rewrite shr_1_even by nia. rewrite IH by nia. apply IH, Hk.
    + replace (Zpos p~1) with (1 + Zpos p + Zpos p) by lia.
      rewrite !Z.pow_add_r by lia. lia.
  - replace (k * 2 ^ Zpos p~0) with (k * 2 ^ Zpos p * 2 ^ Zpos p).
    + rewrite IH by nia. apply IH, Hk.
    + replace (Zpos p~0) with (Zpos p + Zpos p) by lia.
      rewrite !Z.pow_add_r by lia. lia.
  - replace (k * 2 ^ 1) with (2 * k) by lia. apply shr_1_even, Hk.
Qed.

(** [1.0f * x] is [x]. *)
Lemma fmul_one_l x : is_binary32 x = true -> fmul f1 x = x.
Proof.
  destruct x as [s | s | | s m e]; try reflexivity.
  unfold is_binary32, valid_binary, bounded, canonical_mantissa.
  intros Hv.
  assert (fexp prec emax (Zpos (digits2_pos m) + e) = e /\
          (e <=? emax - prec) = true) as [Hc He] by lia.
  unfold fmul, f1. cbn [SFmul xorb]. unfold binary_round_aux.
  pose proof (digits2_pos_bounds m) as [Hlo Hhi].
  assert (Zpos (8388608 * m) = Zpos m * 2 ^ 23) as Hm by lia.
  assert (Zdigits2 (Zpos (8388608 * m)) = Zpos (digits2_pos m) + 23) as Hd.
  { cbn [Zdigits2]. apply digits2_pos_unique. rewrite Hm.
    replace (Zpos (digits2_pos m) + 23 - 1)
      with (Zpos (digits2_pos m) - 1 + 23) by lia.
    rewrite !Z.pow_add_r by lia. nia. }
  assert (shr_fexp prec emax (Zpos (8388608 * m)) (-23 + e) loc_Exact
          = ({| shr_m := Zpos m; shr_r := false; shr_s := false |}, e))
    as ->.
  { unfold shr_fexp. rewrite Hd.
    replace (Zpos (digits2_pos m) + 23 + (-23 + e))
      with (Zpos (digits2_pos m) + e) by lia.
    rewrite Hc. replace (e - (-23 + e)) with 23 by lia.
    cbn [shr shr_record_of_loc]. rewrite Hm.
    rewrite iter_shr_1_exact by lia. f_equal. lia. }
  cbn [shr_m loc_of_shr_record round_nearest_even].
  unfold shr_fexp. cbn [Zdigits2].
  rewrite Hc, Z.sub_diag. cbn [shr shr_record_of_loc shr_m].
  rewrite He. reflexivity.
Qed.

Lemma fadd_zero_l x : is_zero x = false -> fadd f0 x = x.
Proof. destruct x; [discriminate | reflexivity ..]. Qed.

Lemma fadd_zero_r x : is_zero x = false -> fadd x f0 = x.
Proof. destruct x; [discriminate | reflexivity ..]. Qed.

Lemma fsub_zero_r x : is_zero x = false -> fsub x f0 = x.
Proof. destruct x; [discriminate | reflexivity ..]. Qed.

(* ===================================================================== *)
(** * The [int] expressions of the code stay in range *)
(* ===================================================================== *)

(** Unfolds the range predicates down to inequalities on [Z]. *)
Ltac unfold_ranges :=
  unfold call_in_range, impulse_in_range, window_in_range, sizes_in_range,
    dims_in_range, in_int, INT_MIN, INT_MAX in *.

(** The counters of the loops of [AddImpulse], their increments and the
    coordinates [x + i], [y + j]. *)
Lemma window_ints_in_range x y radius i j :
  window_in_range x y radius ->
  - radius <= i <= radius -> - radius <= j <= radius ->
  in_int i /\ in_int (i + 1) /\ in_int j /\ in_int (j + 1) /\
  in_int (x + i) /\ in_int (y + j).
Proof. unfold_ranges. lia. Qed.

(** [i * i + j * j] and its two products. *)
Lemma dist2_ints_in_range x y radius i j :
  impulse_in_range x y radius ->
  - radius <= i <= radius -> - radius <= j <= radius ->
  in_int (i * i) /\ in_int (j * j) /\ in_int (i * i + j * j).
Proof.
  unfold_ranges. intros [_ Hr] Hi Hj.
  assert (0 <= i * i <= radius * radius) by nia.
  assert (0 <= j * j <= radius * radius) by nia.
  lia.
Qed.

(** [idx(x, y)] and its product, at every cell of the grid: the cells
    that [AddImpulse] writes and those that [Step] and [RenderToImage]
    read and write, neighbours included. *)
Lemma idx_ints_in_range w h cx cy :
  sizes_in_range w h -> 0 <= cx < w -> 0 <= cy < h ->
  in_int (cy * w) /\ in_int (cy * w + cx).
Proof.
  unfold_ranges. intros [_ Hwh] Hx Hy.
  assert (0 <= cy * w /\ cy * w + cx < w * h) by nia.
  lia.
Qed.

(** The counters of the loops of [Step] and [RenderToImage], their
    increments and the coordinates of the four neighbours. *)
Lemma interior_ints_in_range w h cx cy :
  dims_in_range w h -> 1 <= cx <= w - 1 -> 1 <= cy <= h - 1 ->
  in_int cx /\ in_int cy /\ in_int (cx - 1) /\ in_int (cy - 1) /\
  (cx < w - 1 -> in_int (cx + 1)) /\ (cy < h - 1 -> in_int (cy + 1)).
Proof. unfold_ranges. lia. Qed.

(* ===================================================================== *)
(** * Reasoning about computations *)
(* ===================================================================== *)

Section Runs.

Context {St : Type}.
Implicit Types s : St.

Lemma runs_ret {A} (a : A) s (Q : A -> St -> Prop) :
  Q a s -> runs (ret a) s Q.
Proof. intros HQ. exists a, s. split; [reflexivity | exact HQ]. Qed.

Lemma runs_bind {A B} (c : M St A) (k : A -> M St B) s
    (Q : B -> St -> Prop) :
  runs c s (fun a s' => runs (k a) s' Q) -> runs (bind c k) s Q.
Proof.
  intros (a & s1 & Hc & b & s2 & Hk & HQ).
  exists b, s2. unfold bind. rewrite Hc. split; assumption.
Qed.

Lemma runs_gets {A} (f : St -> A) s (Q : A -> St -> Prop) :
  Q (f s) s -> runs (gets f) s Q.
Proof. intros HQ. exists (f s), s. split; [reflexivity | exact HQ]. Qed.

Lemma runs_modify (f : St -> St) s (Q : unit -> St -> Prop) :
  Q tt (f s) -> runs (modify f) s Q.
Proof. intros HQ. exists tt, (f s). split; [reflexivity | exact HQ]. Qed.

Lemma runs_defined {A} (o : option A) (a : A) s (Q : A -> St -> Prop) :
  o = Some a -> Q a s -> runs (defined o) s Q.
Proof. intros -> HQ. apply runs_ret, HQ. Qed.

Lemma runs_mono {A} (c : M St A) s (Q Q' : A -> St -> Prop) :
  runs c s Q -> (forall a s', Q a s' -> Q' a s') -> runs c s Q'.
Proof.
  intros (a & s' & Hc & HQ) Himp. exists a, s'. split; auto.
Qed.

Lemma runs_det {A} (c : M St A) s (Q : A -> St -> Prop) a s' :
  runs c s Q -> c s = Some (a, s') -> Q a s'.
Proof.
  intros (a0 & s0 & Hc & HQ) Heq. rewrite Hc in Heq.
  injection Heq as Ha Hs. subst a0 s0. exact HQ.
Qed.

(** The rule of the counted loop, with an invariant indexed by the
    counter. *)
Lemma runs_for_loop (I : Z -> St -> Prop) (body : Z -> M St unit) n :
  forall i s,
    I i s ->
    (forall j t, i <= j < i + Z.of_nat n -> I j t ->
                 runs (body j) t (fun _ t' => I (j + 1) t')) ->
    runs (for_loop n i body) s (fun _ s' => I (i + Z.of_nat n) s').
Proof.
  induction n as [|n IH]; intros i s Hi Hbody.
  - apply runs_ret. replace (i + Z.of_nat 0) with i by lia. exact Hi.
  - cbn [for_loop]. apply runs_bind.
    eapply runs_mono; [apply Hbody; [lia | exact Hi] |].
    intros u s1 H1. cbn beta.
    replace (i + Z.of_nat (S n)) with ((i + 1) + Z.of_nat n) by lia.
    apply IH; [exact H1 |].
    intros j t Hj. apply Hbody. lia.
Qed.

Lemma runs_for_range (I : Z -> St -> Prop) (body : Z -> M St unit)
    lo hi s :
  I lo s ->
  (forall j t, lo <= j < hi -> I j t ->
               runs (body j) t (fun _ t' => I (j + 1) t')) ->
  runs (for_range lo hi body) s (fun _ s' => I (Z.max lo hi) s').
Proof.
  intros Hlo Hbody. unfold for_range.
  replace (Z.max lo hi) with (lo + Z.of_nat (Z.to_nat (hi - lo))) by lia.
  apply runs_for_loop; [exact Hlo |].
  intros j t Hj. apply Hbody. lia.
Qed.

End Runs.

(** ** A sweep over a box of cells, row by row *)

Section Sweep.

Context {St : Type}.
Variables xlo xhi ylo yhi : Z.

Local Abbreviation box := (in_box xlo xhi ylo yhi).
Local Abbreviation vis := (visited xlo xhi ylo yhi).

Lemma visited_self X Y : vis Y X X Y = false.
Proof. unfold visited, in_box. lia. Qed.

Lemma visited_next X Y cx cy :
  xlo <= X < xhi -> ylo <= Y < yhi ->
  vis Y (X + 1) cx cy
  = vis Y X cx cy || ((cx =? X) && (cy =? Y)).
Proof. unfold visited, in_box. lia. Qed.

Lemma visited_row_end Y cx cy :
  vis Y (Z.max xlo xhi) cx cy = vis (Y + 1) xlo cx cy.
Proof. unfold visited, in_box. lia. Qed.

Lemma visited_start cx cy : vis ylo xlo cx cy = false.
Proof. unfold visited, in_box. lia. Qed.

Lemma visited_end cx cy :
  vis (Z.max ylo yhi) xlo cx cy = box cx cy.
Proof. unfold visited, in_box. lia. Qed.

(** [Inv D s]: the state [s] is what the loops leave when the cells of
    [D] are done. *)
Variable Inv : (Z -> Z -> bool) -> St -> Prop.

Hypothesis Inv_ext : forall D D' s,
  (forall cx cy, D cx cy = D' cx cy) -> Inv D s -> Inv D' s.

Lemma sweep_row (body : Z -> Z -> M St unit) Y s :
  ylo <= Y < yhi ->
  (forall X t, xlo <= X < xhi -> Inv (vis Y X) t ->
     runs (body X Y) t (fun _ t' => Inv (vis Y (X + 1)) t')) ->
  Inv (vis Y xlo) s ->
  runs (for_range xlo xhi (fun x => body x Y)) s
       (fun _ s' => Inv (vis (Y + 1) xlo) s').
Proof.
  intros HY Hbody Hs.
  eapply runs_mono.
  - apply (runs_for_range (fun X t => Inv (vis Y X) t)); eauto.
  - cbn beta. intros u s'. apply Inv_ext. apply visited_row_end.
Qed.

Lemma sweep_rows (row : Z -> M St unit) s :
  (forall Y t, ylo <= Y < yhi -> Inv (vis Y xlo) t ->
     runs (row Y) t (fun _ t' => Inv (vis (Y + 1) xlo) t')) ->
  Inv (fun _ _ => false) s ->
  runs (for_range ylo yhi row) s (fun _ s' => Inv box s').
Proof.
  intros Hrow Hs.
  eapply runs_mono.
  - apply (runs_for_range (fun Y t => Inv (vis Y xlo) t)).
    + revert Hs. apply Inv_ext. intros. symmetry. apply visited_start.
    + exact Hrow.
  - cbn beta. intros u s'. apply Inv_ext. apply visited_end.
Qed.

End Sweep.

(* ===================================================================== *)
(** * Grids stored row by row *)
(* ===================================================================== *)

Section Grid.

Context {A : Type}.
Implicit Types (v : list A) (f g : Z -> Z -> A).

Lemma idx_bounds w h cx cy :
  0 <= cx < w -> 0 <= cy < h -> 0 <= cy * w + cx < w * h.
Proof. nia. Qed.

Lemma idx_inj w cx cy cx' cy' :
  0 <= cx < w -> 0 <= cx' < w ->
  cy * w + cx = cy' * w + cx' -> cx = cx' /\ cy = cy'.
Proof.
  intros Hx Hx' Heq.
  assert (cy = cy') as ->.
  { destruct (Z.lt_trichotomy cy cy') as [Hlt | [Heq' | Hgt]];
      [ | exact Heq' | ]; exfalso; nia. }
  split; [lia | reflexivity].
Qed.

Lemma vec_get_Some v k :
  0 <= k < Z.of_nat (length v) -> exists a, vec_get v k = Some a.
Proof.
  intros Hk. unfold vec_get.
  destruct (k <? 0) eqn:E; [lia |].
  destruct (lookup_lt_is_Some_2 v (Z.to_nat k)) as [a Ha]; [lia |].
  exists a. exact Ha.
Qed.

Lemma vec_get_set_eq v k a v' :
  vec_set v k a = Some v' -> vec_get v' k = Some a.
Proof.
  unfold vec_set, vec_get.
  destruct ((0 <=? k) && (k <? Z.of_nat (length v))) eqn:E; [|discriminate].
  intros [= <-]. destruct (k <? 0) eqn:E'; [lia |].
  apply list_lookup_insert_eq. lia.
Qed.

Lemma vec_get_set_ne v k a v' k' :
  vec_set v k a = Some v' -> k <> k' -> vec_get v' k' = vec_get v k'.
Proof.
  unfold vec_set, vec_get.
  destruct ((0 <=? k) && (k <? Z.of_nat (length v))) eqn:E; [|discriminate].
  intros [= <-] Hne. destruct (k' <? 0) eqn:E'; [reflexivity |].
  apply list_lookup_insert_ne. lia.
Qed.

Lemma vec_set_length v k a v' :
  vec_set v k a = Some v' -> length v' = length v.
Proof.
  unfold vec_set.
  destruct ((0 <=? k) && (k <? Z.of_nat (length v))); [|discriminate].
  intros [= <-]. apply length_insert.
Qed.

Lemma vec_set_Some v k a :
  0 <= k < Z.of_nat (length v) -> exists v', vec_set v k a = Some v'.
Proof.
  intros Hk. unfold vec_set.
  destruct ((0 <=? k) && (k <? Z.of_nat (length v))) eqn:E; [eauto | lia].
Qed.

Lemma grid_is_ext w h v f g :
  (forall cx cy, 0 <= cx < w -> 0 <= cy < h -> f cx cy = g cx cy) ->
  grid_is w h v f -> grid_is w h v g.
Proof.
  intros Hfg [Hlen Hget]. split; [exact Hlen |].
  intros cx cy Hx Hy. rewrite <- Hfg by assumption. apply Hget; assumption.
Qed.

(** Writing the cell [(X, Y)]. *)
Lemma grid_is_set w h v f X Y a :
  grid_is w h v f -> 0 <= X < w -> 0 <= Y < h ->
  exists v', vec_set v (Y * w + X) a = Some v' /\
             grid_is w h v'
               (fun cx cy => if (cx =? X) && (cy =? Y) then a else f cx cy).
Proof.
  intros [Hlen Hget] HX HY.
  destruct (vec_set_Some v (Y * w + X) a) as [v' Hv'].
  { pose proof (idx_bounds w h X Y HX HY). lia. }
  exists v'. split; [exact Hv' |]. split.
  - rewrite (vec_set_length _ _ _ _ Hv'). exact Hlen.
  - intros cx cy Hx Hy.
    destruct ((cx =? X) && (cy =? Y)) eqn:E.
    + assert (cx = X /\ cy = Y) as [-> ->] by lia.
      apply (vec_get_set_eq _ _ _ _ Hv').
    + rewrite (vec_get_set_ne _ _ _ _ _ Hv').
      * apply Hget; assumption.
      * intros Heq. apply idx_inj in Heq; lia.
Qed.

(** A vector of the right length is the grid of its own cells. *)
Lemma grid_is_self (d : A) w h v :
  0 <= w -> 0 <= h -> length v = Z.to_nat (w * h) ->
  grid_is w h v (fun cx cy => default d (vec_get v (cy * w + cx))).
Proof.
  intros Hw Hh Hlen. split; [exact Hlen |].
  intros cx cy Hx Hy.
  destruct (vec_get_Some v (cy * w + cx)) as [a Ha].
  { pose proof (idx_bounds w h cx cy Hx Hy). lia. }
  rewrite Ha. reflexivity.
Qed.

Lemma grid_is_replicate w h (a : A) :
  grid_is w h (replicate (Z.to_nat (w * h)) a) (fun _ _ => a).
Proof.
  split; [apply length_replicate |].
  intros cx cy Hx Hy. unfold vec_get.
  pose proof (idx_bounds w h cx cy Hx Hy).
  destruct (cy * w + cx <? 0) eqn:E; [lia |].
  apply lookup_replicate_2. lia.
Qed.

(** Two vectors that are the same grid are the same vector. *)
Lemma grid_is_unique w h v v' f :
  0 <= w -> grid_is w h v f -> grid_is w h v' f -> v = v'.
Proof.
  intros Hw [Hlen Hget] [Hlen' Hget'].
  apply list_eq. intros i.
  destruct (decide (i < length v)%nat) as [Hi | Hi].
  - assert (0 < w) as Hwpos.
    { destruct (Z.eq_dec w 0) as [-> |]; [|lia].
      rewrite Z.mul_0_l in Hlen. cbn in Hlen. lia. }
    assert (0 <= h) as Hh by nia.
    set (k := Z.of_nat i).
    assert (0 <= k < w * h) as Hk by lia.
    pose proof (Z.div_mod k w ltac:(lia)) as Hdm.
    pose proof (Z.mod_pos_bound k w Hwpos) as Hmod.
    assert (0 <= k / w < h) as Hdiv.
    { split; [apply Z.div_pos; lia |].
      apply Z.div_lt_upper_bound; lia. }
    specialize (Hget (k mod w) (k / w) Hmod Hdiv).
    specialize (Hget' (k mod w) (k / w) Hmod Hdiv).
    replace (k / w * w + k mod w) with k in Hget, Hget' by lia.
    unfold vec_get in Hget, Hget'.
    destruct (k <? 0) eqn:E; [lia |].
    replace (Z.to_nat k) with i in Hget, Hget' by lia.
    congruence.
  - rewrite !lookup_ge_None_2; [reflexivity | lia | lia].
Qed.

End Grid.

(** The loops over the interior, with an invariant of the sweep. *)
Lemma in_box_interior w h cx cy :
  in_box 1 (w - 1) 1 (h - 1) cx cy = interior w h cx cy.
Proof. unfold in_box, interior. lia. Qed.

Lemma runs_for_interior {St} (dims : St -> Z * Z)
    (body : Z -> Z -> M St unit)
    (Inv : (Z -> Z -> bool) -> St -> Prop) (w h : Z) (s : St) :
  (forall D D' t, (forall cx cy, D cx cy = D' cx cy) -> Inv D t -> Inv D' t) ->
  (forall D t, Inv D t -> dims t = (w, h)) ->
  (forall X Y t, 1 <= X < w - 1 -> 1 <= Y < h - 1 ->
     Inv (visited 1 (w - 1) 1 (h - 1) Y X) t ->
     runs (body X Y) t
          (fun _ t' => Inv (visited 1 (w - 1) 1 (h - 1) Y (X + 1)) t')) ->
  Inv (fun _ _ => false) s ->
  runs (for_interior dims body) s (fun _ s' => Inv (interior w h) s').
Proof.
  intros Hext Hdims Hbody Hs. unfold for_interior.
  apply runs_bind, runs_gets. rewrite (Hdims _ _ Hs). cbn [snd].
  eapply runs_mono.
  - apply (sweep_rows 1 (w - 1) 1 (h - 1) Inv Hext); [| exact Hs].
    intros Y t HY Ht. cbn beta.
    apply runs_bind, runs_gets. rewrite (Hdims _ _ Ht). cbn [fst].
    apply (sweep_row 1 (w - 1) 1 (h - 1) Inv Hext body); auto.
  - cbn beta. intros u s'. apply Hext. apply in_box_interior.
Qed.

(* ===================================================================== *)
(** * The wave field *)
(* ===================================================================== *)

Lemma same_config_refl s : same_config s s.
Proof. repeat split. Qed.

Lemma same_config_trans s0 s1 s2 :
  same_config s0 s1 -> same_config s1 s2 -> same_config s0 s2.
Proof. unfold same_config. intuition congruence. Qed.

Lemma wf_new w h : 0 <= w -> 0 <= h -> wf (LiquidSim_new w h).
Proof.
  intros Hw Hh. split; cbn; try assumption; apply length_replicate.
Qed.

Lemma wf_heights s : wf s -> grid_is (width s) (height s) (heightField s) (hat s).
Proof. intros [? ? ? ?]. apply grid_is_self; assumption. Qed.

Lemma wf_velocities s :
  wf s -> grid_is (width s) (height s) (velocityField s) (vat s).
Proof. intros [? ? ? ?]. apply grid_is_self; assumption. Qed.

Lemma grid_is_hat s f cx cy :
  grid_is (width s) (height s) (heightField s) f ->
  0 <= cx < width s -> 0 <= cy < height s -> hat s cx cy = f cx cy.
Proof. intros [_ Hget] Hx Hy. unfold hat. rewrite Hget; auto. Qed.

Lemma grid_is_vat s f cx cy :
  grid_is (width s) (height s) (velocityField s) f ->
  0 <= cx < width s -> 0 <= cy < height s -> vat s cx cy = f cx cy.
Proof. intros [_ Hget] Hx Hy. unfold vat. rewrite Hget; auto. Qed.

Lemma wf_of_grids s f g :
  0 <= width s -> 0 <= height s ->
  grid_is (width s) (height s) (heightField s) f ->
  grid_is (width s) (height s) (velocityField s) g -> wf s.
Proof. intros Hw Hh [Hl _] [Hl' _]. split; assumption. Qed.

(** ** The primitive steps *)

Lemma runs_idx s x y (Q : Z -> LiquidSim -> Prop) :
  Q (y * width s + x) s -> runs (idx x y) s Q.
Proof. intros HQ. unfold idx. apply runs_bind, runs_gets, runs_ret, HQ. Qed.

Lemma runs_read_height s k a (Q : float -> LiquidSim -> Prop) :
  vec_get (heightField s) k = Some a -> Q a s -> runs (read_height k) s Q.
Proof.
  intros Hk HQ. unfold read_height.
  apply runs_bind, runs_gets. eapply runs_defined; eassumption.
Qed.

Lemma runs_read_velocity s k a (Q : float -> LiquidSim -> Prop) :
  vec_get (velocityField s) k = Some a -> Q a s ->
  runs (read_velocity k) s Q.
Proof.
  intros Hk HQ. unfold read_velocity.
  apply runs_bind, runs_gets. eapply runs_defined; eassumption.
Qed.

Lemma runs_write_height s k a v' (Q : unit -> LiquidSim -> Prop) :
  vec_set (heightField s) k a = Some v' -> Q tt (set_heightField v' s) ->
  runs (write_height k a) s Q.
Proof.
  intros Hk HQ. unfold write_height.
  apply runs_bind, runs_gets. apply runs_bind.
  eapply runs_defined; [eassumption |]. apply runs_modify, HQ.
Qed.

Lemma runs_write_velocity s k a v' (Q : unit -> LiquidSim -> Prop) :
  vec_set (velocityField s) k a = Some v' -> Q tt (set_velocityField v' s) ->
  runs (write_velocity k a) s Q.
Proof.
  intros Hk HQ. unfold write_velocity.
  apply runs_bind, runs_gets. apply runs_bind.
  eapply runs_defined; [eassumption |]. apply runs_modify, HQ.
Qed.

(** ** The first pass of [Step] *)

Lemma forces_done_ext s0 D D' s :
  (forall cx cy, D cx cy = D' cx cy) ->
  forces_done s0 D s -> forces_done s0 D' s.
Proof.
  intros HD (Hc & Hh & Hv). repeat split; try assumption; try apply Hc.
  - apply Hv.
  - intros cx cy Hx Hy. rewrite <- HD. apply Hv; assumption.
Qed.

Lemma force_cell_runs s0 X Y t :
  wf s0 ->
  1 <= X < width s0 - 1 -> 1 <= Y < height s0 - 1 ->
  forces_done s0 (visited 1 (width s0 - 1) 1 (height s0 - 1) Y X) t ->
  runs (force_cell X Y) t
    (fun _ t' =>
       forces_done s0
         (visited 1 (width s0 - 1) 1 (height s0 - 1) Y (X + 1)) t').
Proof.
  intros Hwf HX HY ((Hw & Hh & Hk & Hd) & Hhf & Hv).
  pose proof (wf_heights s0 Hwf) as [_ Hget].
  unfold force_cell.
  apply runs_bind, runs_idx.
  apply runs_bind. eapply runs_read_height.
  { rewrite Hhf, Hw. apply Hget; lia. }
  apply runs_bind, runs_idx.
  apply runs_bind. eapply runs_read_height.
  { rewrite Hhf, Hw. apply Hget; lia. }
  apply runs_bind, runs_idx.
  apply runs_bind. eapply runs_read_height.
  { rewrite Hhf, Hw. apply Hget; lia. }
  apply runs_bind, runs_idx.
  apply runs_bind. eapply runs_read_height.
  { rewrite Hhf, Hw. apply Hget; lia. }
  apply runs_bind, runs_idx.
  apply runs_bind. eapply runs_read_height.
  { rewrite Hhf, Hw. apply Hget; lia. }
  apply runs_bind, runs_gets.
  apply runs_bind, runs_idx.
  apply runs_bind. eapply runs_read_velocity.
  { rewrite Hw. apply Hv; lia. }
  rewrite visited_self.
  edestruct (grid_is_set _ _ _ _ X Y
               (fadd (vat s0 X Y) (force s0 X Y)) Hv) as (v' & Hset & Hv');
    [lia | lia |].
  eapply runs_write_velocity.
  { rewrite Hw, Hk. exact Hset. }
  split; [repeat split; assumption |].
  split; [exact Hhf |]. cbn [velocityField set_velocityField].
  revert Hv'. apply grid_is_ext. intros cx cy Hx Hy.
  rewrite visited_next by lia.
  destruct ((cx =? X) && (cy =? Y)) eqn:E.
  - assert (cx = X /\ cy = Y) as [-> ->] by lia.
    rewrite orb_true_r. reflexivity.
  - rewrite orb_false_r. reflexivity.
Qed.

Lemma Step_forces_runs s0 :
  wf s0 ->
  runs (for_interior (fun s => (width s, height s)) force_cell) s0
       (fun _ s => forces_done s0 (interior (width s0) (height s0)) s).
Proof.
  intros Hwf.
  apply (runs_for_interior _ _ (forces_done s0)).
  - apply forces_done_ext.
  - intros D t ((Hw & Hh & _) & _). cbn. congruence.
  - intros X Y t HX HY. apply force_cell_runs; assumption.
  - split; [apply same_config_refl |]. split; [reflexivity |].
    apply wf_velocities, Hwf.
Qed.

(** ** The second pass of [Step] *)

Lemma integrate_done_ext s1 D D' s :
  (forall cx cy, D cx cy = D' cx cy) ->
  integrate_done s1 D s -> integrate_done s1 D' s.
Proof.
  intros HD (Hc & Hv & Hh). split; [exact Hc |]. split.
  - revert Hv. apply grid_is_ext. intros. rewrite HD. reflexivity.
  - revert Hh. apply grid_is_ext. intros. rewrite HD. reflexivity.
Qed.

Lemma integrate_cell_runs s1 X Y t :
  1 <= X < width s1 - 1 -> 1 <= Y < height s1 - 1 ->
  integrate_done s1 (visited 1 (width s1 - 1) 1 (height s1 - 1) Y X) t ->
  runs (integrate_cell X Y) t
    (fun _ t' =>
       integrate_done s1
         (visited 1 (width s1 - 1) 1 (height s1 - 1) Y (X + 1)) t').
Proof.
  intros HX HY ((Hw & Hh & Hk & Hd) & Hv & Hhf).
  unfold integrate_cell.
  apply runs_bind, runs_idx.
  apply runs_bind. eapply runs_read_velocity.
  { rewrite Hw. apply Hv; lia. }
  rewrite visited_self.
  edestruct (grid_is_set _ _ _ _ X Y (fmul (vat s1 X Y) f0_94) Hv)
    as (v' & Hset & Hv'); [lia | lia |].
  apply runs_bind. eapply runs_write_velocity.
  { rewrite Hw. exact Hset. }
  apply runs_bind, runs_idx. cbn [width set_velocityField].
  apply runs_bind. eapply runs_read_height.
  { cbn [heightField set_velocityField]. rewrite Hw. apply Hhf; lia. }
  rewrite visited_self.
  apply runs_bind, runs_idx. cbn [width set_velocityField].
  apply runs_bind. eapply runs_read_velocity.
  { cbn [velocityField set_velocityField]. rewrite Hw. apply Hv'; lia. }
  rewrite !Z.eqb_refl. cbn [andb].
  edestruct (grid_is_set _ _ _ _ X Y
               (fadd (hat s1 X Y) (fmul (vat s1 X Y) f0_94)) Hhf)
    as (h' & Hseth & Hh'); [lia | lia |].
  eapply runs_write_height.
  { cbn [heightField set_velocityField]. rewrite Hw. exact Hseth. }
  split; [repeat split; assumption |].
  cbn [velocityField heightField set_velocityField set_heightField].
  split.
  - revert Hv'. apply grid_is_ext. intros cx cy Hx Hy.
    rewrite visited_next by lia.
    destruct ((cx =? X) && (cy =? Y)) eqn:E.
    + assert (cx = X /\ cy = Y) as [-> ->] by lia.
      rewrite orb_true_r. reflexivity.
    + rewrite orb_false_r. reflexivity.
  - revert Hh'. apply grid_is_ext. intros cx cy Hx Hy.
    rewrite visited_next by lia.
    destruct ((cx =? X) && (cy =? Y)) eqn:E.
    + assert (cx = X /\ cy = Y) as [-> ->] by lia.
      rewrite orb_true_r. reflexivity.
    + rewrite orb_false_r. reflexivity.
Qed.

Lemma Step_integrate_runs s1 :
  wf s1 ->
  runs (for_interior (fun s => (width s, height s)) integrate_cell) s1
       (fun _ s => integrate_done s1 (interior (width s1) (height s1)) s).
Proof.
  intros Hwf.
  apply (runs_for_interior _ _ (integrate_done s1)).
  - apply integrate_done_ext.
  - intros D t ((Hw & Hh & _) & _). cbn. congruence.
  - intros X Y t HX HY. apply integrate_cell_runs; assumption.
  - split; [apply same_config_refl |].
    split; [apply wf_velocities | apply wf_heights]; exact Hwf.
Qed.

(** ** [Step] as a whole *)

Lemma Step_runs s0 : wf s0 -> runs Step s0 (fun _ s => Step_post s0 s).
Proof.
  intros Hwf. unfold Step. apply runs_bind.
  eapply runs_mono; [apply Step_forces_runs, Hwf |].
  cbn beta. intros u s1 (Hc1 & Hh1 & Hv1).
  destruct Hc1 as (Hw1 & Hhh1 & Hk1 & Hd1).
  assert (wf s1) as Hwf1.
  { destruct Hwf as [? ? ? ?]. destruct Hv1 as [Hl _].
    split; rewrite ?Hw1, ?Hhh1, ?Hh1; assumption. }
  eapply runs_mono; [apply Step_integrate_runs, Hwf1 |].
  cbn beta. intros u' s (Hc & Hv & Hh).
  rewrite Hw1, Hhh1 in Hv, Hh.
  assert (forall cx cy, hat s1 cx cy = hat s0 cx cy) as Hhat.
  { intros. unfold hat. rewrite Hh1, Hw1. reflexivity. }
  assert (forall cx cy, 0 <= cx < width s0 -> 0 <= cy < height s0 ->
            vat s1 cx cy
            = if interior (width s0) (height s0) cx cy
              then fadd (vat s0 cx cy) (force s0 cx cy) else vat s0 cx cy)
    as Hvat.
  { intros cx cy Hx Hy. rewrite <- Hw1, <- Hhh1 in Hv1.
    rewrite (grid_is_vat s1 _ cx cy Hv1) by lia.
    rewrite Hw1, Hhh1. reflexivity. }
  split; [eapply same_config_trans; [| exact Hc]; repeat split; assumption |].
  split.
  - revert Hv. apply grid_is_ext. intros cx cy Hx Hy.
    rewrite Hvat by assumption. unfold step_velocity.
    destruct (interior (width s0) (height s0) cx cy); reflexivity.
  - revert Hh. apply grid_is_ext. intros cx cy Hx Hy.
    rewrite Hvat, Hhat by assumption. unfold step_height, step_velocity.
    destruct (interior (width s0) (height s0) cx cy); reflexivity.
Qed.

Lemma Step_post_wf s0 s : wf s0 -> Step_post s0 s -> wf s.
Proof.
  intros [Hw Hh _ _] ((Hw' & Hh' & _) & [Hl _] & [Hl' _]).
  split; rewrite ?Hw', ?Hh'; assumption.
Qed.

(** ** [AddImpulse] *)

Lemma in_box_window x y radius cx cy :
  in_box (- radius) (radius + 1) (- radius) (radius + 1) (cx - x) (cy - y)
  = in_window x y radius cx cy.
Proof. unfold in_box, in_window. lia. Qed.

Section AddImpulse.

Variable expf : float -> float.
Variables (x y : Z) (amount : float) (radius : Z).
Variable s0 : LiquidSim.

Local Abbreviation done := (impulse_done expf x y amount s0).
Local Abbreviation post := (AddImpulse_post expf x y amount radius s0).

Lemma impulse_done_ext D D' s :
  (forall i j, D i j = D' i j) -> done D s -> done D' s.
Proof.
  intros HD (Hc & Hv & Hh). split; [exact Hc |]. split; [exact Hv |].
  revert Hh. apply grid_is_ext. intros. rewrite HD. reflexivity.
Qed.

Local Abbreviation vis :=
  (visited (- radius) (radius + 1) (- radius) (radius + 1)).

Lemma impulse_cell_runs I J t :
  - radius <= I < radius + 1 -> - radius <= J < radius + 1 ->
  done (vis J I) t ->
  runs (impulse_cell expf x y amount I J) t
       (fun _ t' => done (vis J (I + 1)) t').
Proof.
  intros HI HJ ((Hw & Hh & Hk & Hd) & Hv & Hhf).
  unfold impulse_cell.
  apply runs_bind, runs_gets. apply runs_bind, runs_gets.
  rewrite Hw, Hh.
  destruct (interior (width s0) (height s0) (x + I) (y + J)) eqn:Hin.
  - assert (0 <= x + I < width s0 /\ 0 <= y + J < height s0) as [HX HY].
    { unfold interior in Hin. lia. }
    apply runs_bind, runs_idx.
    apply runs_bind. eapply runs_read_height.
    { rewrite Hw. apply Hhf; assumption. }
    replace (x + I - x) with I by lia. replace (y + J - y) with J by lia.
    rewrite visited_self. cbn [andb].
    edestruct (grid_is_set _ _ _ _ (x + I) (y + J)
                 (fadd (hat s0 (x + I) (y + J))
                       (fmul amount (falloff expf I J))) Hhf)
      as (h' & Hset & Hh'); [lia | lia |].
    eapply runs_write_height.
    { rewrite Hw. exact Hset. }
    split; [repeat split; assumption |]. split; [exact Hv |].
    cbn [heightField set_heightField].
    revert Hh'. apply grid_is_ext. intros cx cy Hx Hy.
    rewrite visited_next by lia.
    destruct ((cx =? x + I) && (cy =? y + J)) eqn:E.
    + assert (cx = x + I /\ cy = y + J) as [-> ->] by lia.
      replace (x + I - x) with I by lia.
      replace (y + J - y) with J by lia.
      rewrite !Z.eqb_refl, orb_true_r, Hin. cbn [andb].
      unfold impulse_height.
      replace (x + I - x) with I by lia.
      replace (y + J - y) with J by lia. reflexivity.
    + replace ((cx - x =? I) && (cy - y =? J)) with false by lia.
      rewrite orb_false_r. reflexivity.
  - apply runs_ret.
    split; [repeat split; assumption |]. split; [exact Hv |].
    revert Hhf. apply grid_is_ext. intros cx cy Hx Hy.
    rewrite visited_next by lia.
    destruct ((cx - x =? I) && (cy - y =? J)) eqn:E.
    + assert (cx = x + I /\ cy = y + J) as [-> ->] by lia.
      rewrite Hin, !andb_false_r. reflexivity.
    + rewrite orb_false_r. reflexivity.
Qed.

Lemma AddImpulse_runs :
  wf s0 ->
  runs (AddImpulse expf x y amount radius) s0
       (fun _ s => post s).
Proof.
  intros Hwf. unfold AddImpulse.
  eapply runs_mono.
  - apply (sweep_rows (- radius) (radius + 1) (- radius) (radius + 1)
             done impulse_done_ext).
    + intros J t HJ Ht.
      apply (sweep_row (- radius) (radius + 1) (- radius) (radius + 1)
               done impulse_done_ext
               (fun i j => impulse_cell expf x y amount i j)); auto.
      intros I t' HI. apply impulse_cell_runs; assumption.
    + split; [apply same_config_refl |]. split; [reflexivity |].
      cbn [andb]. apply wf_heights, Hwf.
  - cbn beta. intros u s (Hc & Hv & Hh).
    split; [exact Hc |]. split; [exact Hv |].
    revert Hh. apply grid_is_ext. intros cx cy Hx Hy.
    rewrite in_box_window. reflexivity.
Qed.

Lemma AddImpulse_post_wf s : wf s0 -> post s -> wf s.
Proof.
  intros [Hw Hh Hl Hl'] ((Hw' & Hh' & _) & Hv & [Hlh _]).
  split; rewrite ?Hw', ?Hh', ?Hv; assumption.
Qed.

End AddImpulse.

(* ===================================================================== *)
(** * What a computation leaves alone *)
(* ===================================================================== *)

Section Keeps.

Context {St B : Type}.
Variable proj : St -> B.

Lemma keeps_ret {A} (a : A) : keeps proj (ret a).
Proof. intros s a' s' [= _ <-]. reflexivity. Qed.

Lemma keeps_gets {A} (f : St -> A) : keeps proj (gets f).
Proof. intros s a' s' [= _ <-]. reflexivity. Qed.

Lemma keeps_defined {A} (o : option A) : keeps proj (defined o).
Proof.
  destruct o as [a |]; [apply keeps_ret |]. intros s a' s' [=].
Qed.

Lemma keeps_bind {A C} (c : M St A) (k : A -> M St C) :
  keeps proj c -> (forall a, keeps proj (k a)) -> keeps proj (bind c k).
Proof.
  intros Hc Hk s b s'. unfold bind.
  destruct (c s) as [[a s1] |] eqn:E; [| discriminate].
  intros Hk'. rewrite (Hk a _ _ _ Hk'). exact (Hc _ _ _ E).
Qed.

Lemma keeps_for_loop (body : Z -> M St unit) n :
  (forall i, keeps proj (body i)) ->
  forall i, keeps proj (for_loop n i body).
Proof.
  intros Hbody. induction n as [| n IH]; intros i; cbn [for_loop].
  - apply keeps_ret.
  - apply keeps_bind; [apply Hbody | intros _; apply IH].
Qed.

Lemma keeps_for_range (body : Z -> M St unit) lo hi :
  (forall i, keeps proj (body i)) -> keeps proj (for_range lo hi body).
Proof. intros Hbody. apply keeps_for_loop, Hbody. Qed.

Lemma keeps_for_interior (dims : St -> Z * Z)
    (body : Z -> Z -> M St unit) :
  (forall x y, keeps proj (body x y)) ->
  keeps proj (for_interior dims body).
Proof.
  intros Hbody. unfold for_interior.
  apply keeps_bind; [apply keeps_gets |]. intros h.
  apply keeps_for_range. intros y.
  apply keeps_bind; [apply keeps_gets |]. intros w.
  apply keeps_for_range. intros x. apply Hbody.
Qed.

End Keeps.

(** A member function that only reads the object. *)
Lemma keeps_on_sim {A} (c : M LiquidSim A) :
  keeps (fun s => s) c -> keeps sim (on_sim c).
Proof.
  intros Hc [s p] a w'. unfold on_sim, lift. cbn [sim pixels].
  destruct (c s) as [[a' s1] |] eqn:E; [| discriminate].
  intros [= _ <-]. cbn [sim set_sim]. exact (Hc _ _ _ E).
Qed.

Lemma keeps_idx x y : keeps (fun s : LiquidSim => s) (idx x y).
Proof.
  unfold idx. apply keeps_bind; [apply keeps_gets | intros; apply keeps_ret].
Qed.

Lemma keeps_read_height k : keeps (fun s : LiquidSim => s) (read_height k).
Proof.
  unfold read_height.
  apply keeps_bind; [apply keeps_gets | intros; apply keeps_defined].
Qed.

Lemma keeps_write_pixel k c : keeps sim (write_pixel k c).
Proof.
  unfold write_pixel. apply keeps_bind; [apply keeps_gets |]. intros p.
  apply keeps_bind; [apply keeps_defined |]. intros p'.
  intros s a s' [= _ <-]. reflexivity.
Qed.

Lemma keeps_render_cell powf lightDir x y :
  keeps sim (render_cell powf lightDir x y).
Proof.
  unfold render_cell.
  repeat first
    [ apply keeps_write_pixel
    | apply keeps_defined
    | apply keeps_on_sim; first [apply keeps_idx | apply keeps_read_height]
    | apply keeps_bind; [| intros ?] ].
Qed.

Lemma keeps_RenderToImage powf lightDir :
  keeps sim (RenderToImage powf lightDir).
Proof.
  unfold RenderToImage. apply keeps_for_interior.
  intros x y. apply keeps_render_cell.
Qed.

(* ===================================================================== *)
(** * The shader *)
(* ===================================================================== *)

Lemma runs_on_sim {A} (c : M LiquidSim A) (w : World)
    (Q : A -> World -> Prop) :
  runs c (sim w) (fun a s' => Q a (set_sim s' w)) -> runs (on_sim c) w Q.
Proof.
  intros (a & s' & Hc & HQ). exists a, (set_sim s' w).
  unfold on_sim, lift. rewrite Hc. split; [reflexivity | exact HQ].
Qed.

Lemma runs_write_pixel (w : World) k c p' (Q : unit -> World -> Prop) :
  vec_set (pixels w) k c = Some p' -> Q tt (set_pixels p' w) ->
  runs (write_pixel k c) w Q.
Proof.
  intros Hk HQ. unfold write_pixel.
  apply runs_bind, runs_gets. apply runs_bind.
  eapply runs_defined; [eassumption |]. apply runs_modify, HQ.
Qed.

Section Render.

Variable powf : float -> float -> float.
Variable lightDir : Vector2.t.
Variable s0 : LiquidSim.
Variable p0 : Z -> Z -> Color.t.

Local Abbreviation normal := (normal_at s0).
Local Abbreviation ok := (shadeable powf lightDir s0).
Local Abbreviation pixel := (pixel_at powf lightDir s0 p0).
Local Abbreviation done := (render_done powf lightDir s0 p0).


Lemma render_done_ext D D' w :
  (forall cx cy, D cx cy = D' cx cy) ->
  done D w -> done D' w.
Proof.
  intros HD (Hs & Hp). split; [exact Hs |].
  revert Hp. apply grid_is_ext. intros. rewrite HD. reflexivity.
Qed.

Lemma render_cell_runs X Y w :
  wf s0 -> ok ->
  1 <= X < width s0 - 1 -> 1 <= Y < height s0 - 1 ->
  done (visited 1 (width s0 - 1) 1 (height s0 - 1) Y X) w ->
  runs (render_cell powf lightDir X Y) w
    (fun _ w' =>
       done
         (visited 1 (width s0 - 1) 1 (height s0 - 1) Y (X + 1)) w').
Proof.
  intros Hwf Hsh HX HY (Hs & Hp).
  pose proof (wf_heights s0 Hwf) as [_ Hget].
  assert (set_sim s0 w = w) as Hw.
  { destruct w as [s p]. cbn in Hs. subst s. reflexivity. }
  unfold render_cell.
  do 4 (apply runs_bind, runs_on_sim, runs_idx; rewrite Hs, Hw;
        apply runs_bind, runs_on_sim; rewrite Hs;
        eapply runs_read_height; [apply Hget; lia |]; rewrite Hw).
  destruct (Hsh X Y) as [c Hc]; [unfold interior; lia |].
  unfold normal_at in Hc.
  apply runs_bind. apply (runs_defined _ c); [exact Hc |].
  apply runs_bind, runs_on_sim, runs_idx. rewrite Hs, Hw.
  edestruct (grid_is_set _ _ _ _ X Y c Hp) as (p' & Hset & Hp');
    [lia | lia |].
  eapply runs_write_pixel; [exact Hset |].
  split; [exact Hs |]. cbn [pixels set_pixels].
  revert Hp'. apply grid_is_ext. intros cx cy Hx Hy.
  rewrite visited_next by lia.
  destruct ((cx =? X) && (cy =? Y)) eqn:E.
  - assert (cx = X /\ cy = Y) as [-> ->] by lia.
    rewrite orb_true_r. unfold pixel, normal.
    unfold normal in Hc. rewrite Hc. reflexivity.
  - rewrite orb_false_r. reflexivity.
Qed.

(** [RenderToImage] on an image of the size of the grid: it ends, the
    object is what it was, the interior pixels are shaded and the
    others are what they were. *)
Lemma RenderToImage_runs (img : Image) :
  wf s0 -> ok ->
  grid_is (width s0) (height s0) img p0 ->
  runs (RenderToImage powf lightDir) (mkWorld s0 img)
    (fun _ w' =>
       sim w' = s0 /\
       grid_is (width s0) (height s0) (pixels w')
         (fun cx cy => if interior (width s0) (height s0) cx cy
                       then pixel cx cy else p0 cx cy)).
Proof.
  intros Hwf Hsh Himg. unfold RenderToImage.
  apply (runs_for_interior _ _ done).
  - apply render_done_ext.
  - intros D t (Hs & _). rewrite Hs. reflexivity.
  - intros X Y t HX HY. apply render_cell_runs; assumption.
  - split; [reflexivity | exact Himg].
Qed.

End Render.
(* ===================================================================== *)
(** * Properties of the wave field *)
(* ===================================================================== *)

Lemma wf_cell_height s cx cy :
  wf s -> 0 <= cx < width s -> 0 <= cy < height s ->
  vec_get (heightField s) (cy * width s + cx) = Some (hat s cx cy).
Proof. intros Hwf Hx Hy. apply (wf_heights s Hwf); assumption. Qed.

Lemma wf_cell_velocity s cx cy :
  wf s -> 0 <= cx < width s -> 0 <= cy < height s ->
  vec_get (velocityField s) (cy * width s + cx) = Some (vat s cx cy).
Proof. intros Hwf Hx Hy. apply (wf_velocities s Hwf); assumption. Qed.

Lemma on_ring_not_interior w h cx cy :
  on_ring w h cx cy -> interior w h cx cy = false.
Proof. unfold on_ring, interior. lia. Qed.

(** One call of [Step], cell by cell. *)
Lemma Step_cells s :
  wf s ->
  exists s', Step s = Some (tt, s') /\ wf s' /\ same_config s s' /\
    forall cx cy, 0 <= cx < width s -> 0 <= cy < height s ->
      vat s' cx cy
      = (if interior (width s) (height s) cx cy
         then step_velocity s cx cy else vat s cx cy) /\
      hat s' cx cy
      = (if interior (width s) (height s) cx cy
         then step_height s cx cy else hat s cx cy).
Proof.
  intros Hwf. destruct (Step_runs s Hwf) as ([] & s' & Hrun & Hpost).
  exists s'. split; [exact Hrun |].
  split; [exact (Step_post_wf s s' Hwf Hpost) |].
  destruct Hpost as (Hc & Hv & Hh). split; [exact Hc |].
  destruct Hc as (Hw & Hhh & _).
  intros cx cy Hx Hy. rewrite <- Hw, <- Hhh in Hv, Hh. split.
  - rewrite (grid_is_vat s' _ cx cy Hv) by lia.
    rewrite Hw, Hhh. reflexivity.
  - rewrite (grid_is_hat s' _ cx cy Hh) by lia.
    rewrite Hw, Hhh. reflexivity.
Qed.

(** One call of [AddImpulse], cell by cell. *)
Lemma AddImpulse_cells expf x y amount radius s :
  wf s ->
  exists s', AddImpulse expf x y amount radius s = Some (tt, s') /\
    wf s' /\ same_config s s' /\
    velocityField s' = velocityField s /\
    forall cx cy, 0 <= cx < width s -> 0 <= cy < height s ->
      hat s' cx cy
      = (if in_window x y radius cx cy
            && interior (width s) (height s) cx cy
         then impulse_height expf x y amount s cx cy else hat s cx cy).
Proof.
  intros Hwf.
  destruct (AddImpulse_runs expf x y amount radius s Hwf)
    as ([] & s' & Hrun & Hpost).
  exists s'. split; [exact Hrun |].
  split; [exact (AddImpulse_post_wf _ _ _ _ _ s s' Hwf Hpost) |].
  destruct Hpost as (Hc & Hv & Hh). split; [exact Hc |].
  split; [exact Hv |].
  destruct Hc as (Hw & Hhh & _).
  intros cx cy Hx Hy. rewrite <- Hw, <- Hhh in Hh.
  rewrite (grid_is_hat s' _ cx cy Hh) by lia.
  rewrite Hw, Hhh. reflexivity.
Qed.

Lemma same_width_vat s s' cx cy :
  width s' = width s -> velocityField s' = velocityField s ->
  vat s' cx cy = vat s cx cy.
Proof. intros Hw Hv. unfold vat. rewrite Hw, Hv. reflexivity. Qed.

(** Neither function writes a cell of the outer ring. *)
Lemma run_call_ring expf c s :
  wf s ->
  exists s', run_call expf c s = Some (tt, s') /\ wf s' /\
    same_config s s' /\
    forall cx cy, on_ring (width s) (height s) cx cy ->
      hat s' cx cy = hat s cx cy /\ vat s' cx cy = vat s cx cy.
Proof.
  intros Hwf. destruct c as [x y amount radius |]; cbn [run_call].
  - destruct (AddImpulse_cells expf x y amount radius s Hwf)
      as (s' & Hrun & Hwf' & Hc & Hv & Hcells).
    exists s'. repeat (split; [assumption |]).
    intros cx cy Hring. pose proof Hring as (Hx & Hy & _).
    rewrite (Hcells cx cy Hx Hy), (on_ring_not_interior _ _ _ _ Hring).
    rewrite andb_false_r. split; [reflexivity |].
    apply same_width_vat; [apply Hc | exact Hv].
  - destruct (Step_cells s Hwf) as (s' & Hrun & Hwf' & Hc & Hcells).
    exists s'. repeat (split; [assumption |]).
    intros cx cy Hring. pose proof Hring as (Hx & Hy & _).
    destruct (Hcells cx cy Hx Hy) as [Hv Hh].
    rewrite Hv, Hh, (on_ring_not_interior _ _ _ _ Hring).
    split; reflexivity.
Qed.

Lemma run_calls_ring expf cs : forall s,
  wf s ->
  exists s', run_calls expf cs s = Some (tt, s') /\ wf s' /\
    same_config s s' /\
    forall cx cy, on_ring (width s) (height s) cx cy ->
      hat s' cx cy = hat s cx cy /\ vat s' cx cy = vat s cx cy.
Proof.
  induction cs as [| c cs IH]; intros s Hwf; cbn [run_calls].
  - exists s. split; [reflexivity |]. split; [exact Hwf |].
    split; [apply same_config_refl |]. intros; split; reflexivity.
  - destruct (run_call_ring expf c s Hwf) as (s1 & Hrun1 & Hwf1 & Hc1 & H1).
    destruct (IH s1 Hwf1) as (s' & Hrun & Hwf' & Hc & H2).
    exists s'. unfold bind. rewrite Hrun1.
    split; [exact Hrun |]. split; [exact Hwf' |].
    split; [exact (same_config_trans _ _ _ Hc1 Hc) |].
    intros cx cy Hring. destruct (H1 cx cy Hring) as [Hh1 Hv1].
    destruct Hc1 as (Hw1 & Hhh1 & _).
    rewrite <- Hw1, <- Hhh1 in Hring.
    destruct (H2 cx cy Hring) as [Hh2 Hv2].
    split; congruence.
Qed.

(** ** C4 *)

(** C4. Whatever sequence of [AddImpulse] and [Step] calls follows the
    constructor, the calls end without a fault and every cell of the
    outer ring ([x = 0], [x = width - 1], [y = 0] or [y = height - 1])
    holds [0.0f] in the height vector and in the velocity vector.  The
    sizes and the arguments of the calls are any for which the [int]
    arithmetic of the code does not overflow: [w * h] is an [int], and so
    are, at every call of [AddImpulse], [x - radius], [x + radius],
    [y - radius], [y + radius], [radius + 1] and [2 * radius * radius]. *)
Theorem ring_stays_zero (expf : float -> float) (w h : Z) (cs : list call) :
  0 <= w -> 0 <= h -> sizes_in_range w h -> Forall call_in_range cs ->
  exists s', run_calls expf cs (LiquidSim_new w h) = Some (tt, s') /\
    forall cx cy, on_ring w h cx cy ->
      vec_get (heightField s') (cy * w + cx) = Some f0 /\
      vec_get (velocityField s') (cy * w + cx) = Some f0.
Proof.
  intros Hw Hh _ _.
  destruct (run_calls_ring expf cs (LiquidSim_new w h) (wf_new w h Hw Hh))
    as (s' & Hrun & Hwf' & (Hw' & Hh' & _) & Hring).
  exists s'. split; [exact Hrun |].
  intros cx cy Hc. pose proof Hc as (Hx & Hy & _).
  destruct (Hring cx cy Hc) as [Hhat Hvat].
  cbn [width height LiquidSim_new] in Hw', Hh'.
  rewrite <- Hw'.
  rewrite (wf_cell_height s' cx cy Hwf'), (wf_cell_velocity s' cx cy Hwf')
    by lia.
  rewrite Hhat, Hvat. unfold hat, vat. cbn [width heightField velocityField
    LiquidSim_new].
  destruct (grid_is_replicate w h f0) as [_ Hget].
  rewrite (Hget cx cy Hx Hy). split; reflexivity.
Qed.

Lemma ring_stays_zero_witness :
  exists s',
    run_calls RefLibm.expf
      [CallAddImpulse 2 2 f1 2; CallStep; CallAddImpulse 0 4 f1 3; CallStep]
      (LiquidSim_new 5 5) = Some (tt, s') /\
    forall cx cy, on_ring 5 5 cx cy ->
      vec_get (heightField s') (cy * 5 + cx) = Some f0 /\
      vec_get (velocityField s') (cy * 5 + cx) = Some f0.
Proof.
  apply (ring_stays_zero RefLibm.expf 5 5); try lia.
  - unfold_ranges. lia.
  - repeat constructor; unfold_ranges; lia.
Defined.

(** ** C6 *)

Lemma for_loop_skip {St} (body : Z -> M St unit) (s : St) n : forall i,
  (forall j, i <= j < i + Z.of_nat n -> body j s = Some (tt, s)) ->
  for_loop n i body s = Some (tt, s).
Proof.
  induction n as [| n IH]; intros i Hbody; cbn [for_loop].
  - reflexivity.
  - unfold bind. rewrite Hbody by lia. apply IH.
    intros j Hj. apply Hbody. lia.
Qed.

Lemma for_range_skip {St} (body : Z -> M St unit) (s : St) lo hi :
  (forall j, lo <= j < hi -> body j s = Some (tt, s)) ->
  for_range lo hi body s = Some (tt, s).
Proof.
  intros Hbody. apply for_loop_skip. intros j Hj. apply Hbody. lia.
Qed.

(** C6. When no cell [(x + i, y + j)] with [i] and [j] from [-radius] to
    [radius] lies strictly inside the outer ring, [AddImpulse] ends
    without a fault and leaves the whole object, so the height vector and
    the velocity vector, as it was.  The object and the arguments are any
    for which the [int] arithmetic of the loops and of the test does not
    overflow: [width - 1], [height - 1], [-radius], [radius + 1],
    [x - radius], [x + radius], [y - radius] and [y + radius] are
    [int]s.  The vectors may have any length: they are not read. *)
Theorem AddImpulse_outside_is_noop (expf : float -> float)
    (s : LiquidSim) (x y : Z) (amount : float) (radius : Z) :
  dims_in_range (width s) (height s) ->
  window_in_range x y radius ->
  (forall i j, - radius <= i <= radius -> - radius <= j <= radius ->
     interior (width s) (height s) (x + i) (y + j) = false) ->
  AddImpulse expf x y amount radius s = Some (tt, s).
Proof.
  intros _ _ Hout. unfold AddImpulse.
  apply for_range_skip. intros j Hj.
  apply for_range_skip. intros i Hi.
  unfold impulse_cell, bind, gets.
  rewrite Hout by lia. reflexivity.
Qed.

Lemma AddImpulse_outside_is_noop_witness :
  AddImpulse RefLibm.expf 100 (-7) f1 3 (LiquidSim_new 5 5)
  = Some (tt, LiquidSim_new 5 5).
Proof.
  apply (AddImpulse_outside_is_noop RefLibm.expf (LiquidSim_new 5 5)).
  - unfold_ranges. cbn [width height LiquidSim_new]. lia.
  - unfold_ranges. lia.
  - intros i j Hi Hj. unfold interior. cbn [width height LiquidSim_new]. lia.
Defined.

(** ** C1 *)

Lemma wf_set_damping d s : wf s -> wf (set_damping d s).
Proof. intros [? ? ? ?]. split; assumption. Qed.

Lemma hat_set_damping d s cx cy : hat (set_damping d s) cx cy = hat s cx cy.
Proof. reflexivity. Qed.

Lemma vat_set_damping d s cx cy : vat (set_damping d s) cx cy = vat s cx cy.
Proof. reflexivity. Qed.

Lemma force_set_damping d s cx cy :
  force (set_damping d s) cx cy = force s cx cy.
Proof. reflexivity. Qed.

(** [Step] does not read [damping]. *)
Lemma Step_set_damping d s s' :
  wf s -> Step s = Some (tt, s') ->
  Step (set_damping d s) = Some (tt, set_damping d s').
Proof.
  intros Hwf Hrun.
  pose proof (runs_det _ _ _ _ _ (Step_runs s Hwf) Hrun) as Hpost.
  destruct (Step_runs (set_damping d s) (wf_set_damping d s Hwf))
    as ([] & s2 & Hrun2 & Hpost2).
  rewrite Hrun2. f_equal. f_equal.
  destruct Hpost as ((Hw & Hh & Hk & Hd) & Hv & Hhf).
  destruct Hpost2 as ((Hw2 & Hh2 & Hk2 & Hd2) & Hv2 & Hhf2).
  cbn [width height stiffness damping set_damping] in Hw2, Hh2, Hk2, Hd2.
  assert (velocityField s2 = velocityField s') as Ev.
  { apply (grid_is_unique (width s) (height s) _ _
             (fun cx cy => if interior (width s) (height s) cx cy
                           then step_velocity s cx cy else vat s cx cy));
      [apply Hwf | | exact Hv].
    revert Hv2. apply grid_is_ext. intros cx cy _ _.
    unfold step_velocity.
    rewrite vat_set_damping, force_set_damping. reflexivity. }
  assert (heightField s2 = heightField s') as Eh.
  { apply (grid_is_unique (width s) (height s) _ _
             (fun cx cy => if interior (width s) (height s) cx cy
                           then step_height s cx cy else hat s cx cy));
      [apply Hwf | | exact Hhf].
    revert Hhf2. apply grid_is_ext. intros cx cy _ _.
    unfold step_height, step_velocity.
    rewrite hat_set_damping, vat_set_damping, force_set_damping.
    reflexivity. }
  destruct s2, s'. unfold set_damping.
  cbn [width height stiffness damping heightField velocityField] in *.
  congruence.
Qed.

(** C1, as the code has it.  On the object the constructor makes, or any
    other with vectors of [width * height] elements, [Step] ends without a
    fault; at every interior cell the new velocity is the old velocity
    plus the force, times the literal [0.94f], and the new height is the
    old height plus that new velocity.  The member [damping] is not read:
    with any other value in it [Step] gives the same two vectors. *)
Theorem Step_decay_is_literal (s : LiquidSim) :
  wf s ->
  exists s', Step s = Some (tt, s') /\
    (forall cx cy, interior (width s) (height s) cx cy = true ->
       vat s' cx cy = fmul (fadd (vat s cx cy) (force s cx cy)) f0_94 /\
       hat s' cx cy = fadd (hat s cx cy) (vat s' cx cy)) /\
    (forall d, Step (set_damping d s) = Some (tt, set_damping d s')).
Proof.
  intros Hwf. destruct (Step_cells s Hwf) as (s' & Hrun & Hwf' & Hc & Hcells).
  exists s'. split; [exact Hrun |]. split.
  - intros cx cy Hin.
    assert (0 <= cx < width s /\ 0 <= cy < height s) as [Hx Hy]
      by (unfold interior in Hin; lia).
    destruct (Hcells cx cy Hx Hy) as [Hv Hh]. rewrite Hin in Hv, Hh.
    rewrite Hv, Hh. split; reflexivity.
  - intros d. apply Step_set_damping; assumption.
Qed.

Lemma wf_bump3 : wf bump3.
Proof. split; cbn; lia. Qed.

Lemma Step_decay_is_literal_witness :
  exists s', Step bump3 = Some (tt, s') /\
    (forall cx cy, interior (width bump3) (height bump3) cx cy = true ->
       vat s' cx cy
       = fmul (fadd (vat bump3 cx cy) (force bump3 cx cy)) f0_94 /\
       hat s' cx cy = fadd (hat bump3 cx cy) (vat s' cx cy)) /\
    (forall d, Step (set_damping d bump3) = Some (tt, set_damping d s')).
Proof. apply (Step_decay_is_literal bump3). split; cbn; lia. Defined.

(** C1 as it is stated fails: on [bump3], whose [damping] is the [0.985f]
    of the constructor, the velocity that [Step] leaves at the interior
    cell is not the old velocity plus the force, times [damping]. *)
Lemma Step_decay_counterexample :
  exists s', Step bump3 = Some (tt, s') /\
    interior (width bump3) (height bump3) 1 1 = true /\
    vat s' 1 1
    <> fmul (fadd (vat bump3 1 1) (force bump3 1 1)) (damping bump3).
Proof.
  eexists. split; [vm_compute; reflexivity |].
  split; [reflexivity |]. vm_compute. discriminate.
Qed.

(** ** C5 *)

(** Decides the tests of [single_bump] once the cell is known. *)
Ltac decide_cell :=
  repeat match goal with
    | |- context [(?a =? ?b) && (?c =? ?d)] =>
        first [ replace ((a =? b) && (c =? d)) with true by lia
              | replace ((a =? b) && (c =? d)) with false by lia ]
    end.

(** C5, as the code has it.  The field has the height [c], not a zero, at
    one interior cell and is flat and at rest elsewhere.  One call of
    [Step] ends without a fault.  It gives every axis-adjacent neighbour
    that is itself an interior cell the velocity [(c * stiffness) * 0.94f]
    (a nonzero float unless that product underflows to zero), and leaves
    the velocity of a neighbour on the outer ring at zero.  The new height
    of the bump is [c + ((0 - 4 * c) * stiffness) * 0.94f]: the sum of the
    four neighbours that enters it is the sum of their heights before the
    call. *)
Theorem Step_spreads_a_bump (s : LiquidSim) (x0 y0 : Z) (c : float) :
  wf s ->
  interior (width s) (height s) x0 y0 = true ->
  is_zero c = false ->
  single_bump s x0 y0 c ->
  exists s', Step s = Some (tt, s') /\
    (forall nx ny, adjacent x0 y0 nx ny ->
       vat s' nx ny
       = if interior (width s) (height s) nx ny
         then spread_velocity c (stiffness s) else f0) /\
    hat s' x0 y0 = bump_height c (stiffness s).
Proof.
  intros Hwf Hin Hc Hbump.
  assert (1 <= x0 < width s - 1 /\ 1 <= y0 < height s - 1) as [Hx0 Hy0]
    by (unfold interior in Hin; lia).
  destruct (Step_cells s Hwf) as (s' & Hrun & Hwf' & Hcfg & Hcells).
  assert (forall cx cy, 0 <= cx < width s -> 0 <= cy < height s ->
            hat s cx cy = if (cx =? x0) && (cy =? y0) then c else f0)
    as Hh by (intros; apply Hbump; assumption).
  assert (forall cx cy, 0 <= cx < width s -> 0 <= cy < height s ->
            vat s cx cy = f0)
    as Hv by (intros; apply Hbump; assumption).
  exists s'. split; [exact Hrun |]. split.
  - intros nx ny Hadj.
    assert (0 <= nx < width s /\ 0 <= ny < height s) as [Hnx Hny]
      by (unfold adjacent in Hadj; lia).
    destruct (Hcells nx ny Hnx Hny) as [Hvel _]. rewrite Hvel.
    destruct (interior (width s) (height s) nx ny) eqn:Hnin;
      [| apply Hv; assumption].
    assert (1 <= nx < width s - 1 /\ 1 <= ny < height s - 1) as [Hnx' Hny']
      by (unfold interior in Hnin; lia).
    unfold step_velocity, force, spread_velocity.
    rewrite (Hv nx ny), !Hh by lia.
    destruct Hadj as [[-> ->] | [[-> ->] | [[-> ->] | [-> ->]]]];
      decide_cell; change (fmul f4 f0) with f0;
      repeat first [ progress change (fadd f0 f0) with f0
                   | rewrite (fadd_zero_r c Hc)
                   | rewrite (fadd_zero_l c Hc)
                   | rewrite (fsub_zero_r c Hc) ];
      reflexivity.
  - destruct (Hcells x0 y0 ltac:(lia) ltac:(lia)) as [_ Hhgt].
    rewrite Hhgt, Hin.
    unfold step_height, step_velocity, force, bump_height.
    rewrite (Hv x0 y0), !Hh by lia. decide_cell. reflexivity.
Qed.

Lemma single_bump_bump5 : single_bump bump5 2 2 f1.
Proof.
  intros cx cy Hx Hy. cbn [width height bump5] in Hx, Hy.
  assert (cx = 0 \/ cx = 1 \/ cx = 2 \/ cx = 3 \/ cx = 4) as Hcx by lia.
  assert (cy = 0 \/ cy = 1 \/ cy = 2 \/ cy = 3 \/ cy = 4) as Hcy by lia.
  destruct Hcx as [-> | [-> | [-> | [-> | ->]]]];
    destruct Hcy as [-> | [-> | [-> | [-> | ->]]]];
    split; reflexivity.
Qed.

Lemma Step_spreads_a_bump_witness :
  exists s', Step bump5 = Some (tt, s') /\
    (forall nx ny, adjacent 2 2 nx ny ->
       vat s' nx ny
       = if interior (width bump5) (height bump5) nx ny
         then spread_velocity f1 (stiffness bump5) else f0) /\
    hat s' 2 2 = bump_height f1 (stiffness bump5).
Proof.
  apply (Step_spreads_a_bump bump5 2 2 f1).
  - split; cbn; lia.
  - reflexivity.
  - reflexivity.
  - exact single_bump_bump5.
Defined.

(** The velocity that spreads from a bump of height [1.0f] is not zero;
    the one that spreads from the smallest positive float is. *)
Example spread_velocity_of_one :
  is_zero (spread_velocity f1 f0_2) = false.
Proof. reflexivity. Qed.

Example spread_velocity_underflows :
  is_zero (S754_finite false 1 (-149)) = false /\
  spread_velocity (S754_finite false 1 (-149)) f0_2 = f0.
Proof. split; reflexivity. Qed.

(** C5 as it is stated fails: [bump3] has one nonzero interior cell, the
    zero velocity everywhere and the stiffness [0.2f]; its four
    neighbours are on the outer ring, and after [Step] their velocity is
    still zero. *)
Lemma Step_spread_counterexample :
  single_bump bump3 1 1 f1 /\
  is_zero (stiffness bump3) = false /\
  exists s', Step bump3 = Some (tt, s') /\
    vat s' 0 1 = f0 /\ vat s' 2 1 = f0 /\ vat s' 1 0 = f0 /\ vat s' 1 2 = f0.
Proof.
  split; [| split; [reflexivity |]].
  - intros cx cy Hx Hy. cbn [width height bump3] in Hx, Hy.
    assert (cx = 0 \/ cx = 1 \/ cx = 2) as Hcx by lia.
    assert (cy = 0 \/ cy = 1 \/ cy = 2) as Hcy by lia.
    destruct Hcx as [-> | [-> | ->]]; destruct Hcy as [-> | [-> | ->]];
      split; reflexivity.
  - eexists. split; [vm_compute; reflexivity |].
    repeat split; reflexivity.
Qed.

(** ** C2 *)

Lemma hat_new w h cx cy :
  0 <= cx < w -> 0 <= cy < h -> hat (LiquidSim_new w h) cx cy = f0.
Proof.
  intros Hx Hy. unfold hat. cbn [width heightField LiquidSim_new].
  destruct (grid_is_replicate w h f0) as [_ Hget].
  rewrite (Hget cx cy Hx Hy). reflexivity.
Qed.

Lemma flt_zero_not_zero x : flt f0 x = true -> is_zero x = false.
Proof. destruct x; [discriminate | reflexivity ..]. Qed.

Lemma dist2_in_window x0 y0 cx cy :
  in_window x0 y0 2 cx cy = true -> 0 <= dist2 x0 y0 cx cy <= 8.
Proof.
  unfold in_window, dist2. intros H.
  assert (-2 <= cx - x0 <= 2 /\ -2 <= cy - y0 <= 2) as [Hx Hy] by lia.
  clear H. generalize dependent (cy - y0). generalize dependent (cx - x0).
  intros dx Hx dy Hy.
  assert (0 <= dx * dx <= 4) by nia. assert (0 <= dy * dy <= 4) by nia.
  lia.
Qed.

(** C2, as the code has it.  On the field the constructor makes, of
    sizes whose product is an [int], with the centre three cells or more
    away from the outer ring, and an [expf] that is [1.0f] at zero and
    positive and decreasing on the squared distances 0 to 8,
    [AddImpulse(x0, y0, 1.0f, 2)] ends without a fault; the height at the
    centre is [1.0f]; every one of the 25 cells of the square from
    [x0 - 2] to [x0 + 2] and [y0 - 2] to [y0 + 2], the corners beyond the
    radius included, is raised to exactly [expf(-d2 * 0.5f)] for its
    squared distance [d2], a positive height; among them a cell farther
    from the centre is strictly lower; a cell outside that square is still
    [0.0f]; the velocity vector is what it was. *)
Theorem AddImpulse_unit_bump (expf : float -> float) (w h x0 y0 : Z) :
  expf_decreases expf ->
  sizes_in_range w h ->
  2 < x0 < w - 3 -> 2 < y0 < h - 3 ->
  exists s', AddImpulse expf x0 y0 f1 2 (LiquidSim_new w h) = Some (tt, s') /\
    hat s' x0 y0 = f1 /\
    (forall cx cy, in_window x0 y0 2 cx cy = true ->
       vec_get (heightField s') (cy * w + cx)
       = Some (expf_at expf (dist2 x0 y0 cx cy)) /\
       flt f0 (hat s' cx cy) = true) /\
    (forall cx cy cx' cy',
       in_window x0 y0 2 cx cy = true -> in_window x0 y0 2 cx' cy' = true ->
       dist2 x0 y0 cx cy < dist2 x0 y0 cx' cy' ->
       flt (hat s' cx' cy') (hat s' cx cy) = true) /\
    (forall cx cy, 0 <= cx < w -> 0 <= cy < h ->
       in_window x0 y0 2 cx cy = false -> hat s' cx cy = f0) /\
    velocityField s' = velocityField (LiquidSim_new w h).
Proof.
  intros [Hone Hdec] _ Hx0 Hy0.
  destruct (AddImpulse_cells expf x0 y0 f1 2 (LiquidSim_new w h))
    as (s' & Hrun & Hwf' & Hc & Hv & Hcells).
  { apply wf_new; lia. }
  cbn [width height LiquidSim_new] in Hcells.
  assert (forall cx cy, in_window x0 y0 2 cx cy = true ->
            hat s' cx cy = expf_at expf (dist2 x0 y0 cx cy)) as Hin.
  { intros cx cy Hwin.
    assert (0 <= cx < w /\ 0 <= cy < h /\ interior w h cx cy = true)
      as (Hx & Hy & Hint) by (unfold in_window, interior in *; lia).
    rewrite (Hcells cx cy Hx Hy), Hwin, Hint. cbn [andb].
    unfold impulse_height. rewrite hat_new by assumption.
    change (falloff expf (cx - x0) (cy - y0))
      with (expf_at expf (dist2 x0 y0 cx cy)).
    destruct (Hdec _ (dist2_in_window _ _ _ _ Hwin)) as (Hb & Hpos & _).
    rewrite (fmul_one_l _ Hb).
    apply fadd_zero_l, flt_zero_not_zero, Hpos. }
  exists s'. split; [exact Hrun |]. split; [| split; [| split; [| split]]].
  - rewrite Hin by (unfold in_window; lia).
    replace (dist2 x0 y0 x0 y0) with 0 by (unfold dist2; lia). exact Hone.
  - intros cx cy Hwin.
    assert (0 <= cx < w /\ 0 <= cy < h) as [Hx Hy]
      by (unfold in_window in Hwin; lia).
    destruct Hc as (Hw' & Hh' & _).
    cbn [width height LiquidSim_new] in Hw', Hh'.
    split.
    + rewrite <- Hw'.
      rewrite (wf_cell_height s' cx cy Hwf') by lia.
      rewrite (Hin _ _ Hwin). reflexivity.
    + rewrite (Hin _ _ Hwin).
      apply (Hdec _ (dist2_in_window _ _ _ _ Hwin)).
  - intros cx cy cx' cy' Hwin Hwin' Hlt.
    rewrite (Hin _ _ Hwin), (Hin _ _ Hwin').
    pose proof (dist2_in_window _ _ _ _ Hwin) as Hd.
    pose proof (dist2_in_window _ _ _ _ Hwin') as Hd'.
    destruct (Hdec _ Hd) as (_ & _ & Hlower). apply Hlower. lia.
  - intros cx cy Hx Hy Hout.
    rewrite (Hcells cx cy Hx Hy), Hout. cbn [andb]. apply hat_new; assumption.
  - exact Hv.
Qed.

(** The reference [expf] at the squared distances 0 to 8. *)
Lemma RefLibm_expf_table k :
  0 <= k <= 8 ->
  expf_at RefLibm.expf k
  = nth (Z.to_nat k)
      [ f1;
        S754_finite false 10175896 (-24); S754_finite false 12343986 (-25);
        S754_finite false 14974012 (-26); S754_finite false 9082197 (-26);
        S754_finite false 11017262 (-27); S754_finite false 13364614 (-28);
        S754_finite false 16212097 (-29); S754_finite false 9833134 (-29) ]
      f0.
Proof.
  intros Hk.
  assert (k = 0 \/ k = 1 \/ k = 2 \/ k = 3 \/ k = 4 \/ k = 5 \/ k = 6 \/
          k = 7 \/ k = 8) as Hcases by lia.
  repeat (destruct Hcases as [-> | Hcases]; [vm_compute; reflexivity |]).
  subst k. vm_compute. reflexivity.
Qed.

Lemma RefLibm_expf_decreases : expf_decreases RefLibm.expf.
Proof.
  split; [reflexivity |]. intros k Hk.
  rewrite (RefLibm_expf_table k Hk).
  assert (k = 0 \/ k = 1 \/ k = 2 \/ k = 3 \/ k = 4 \/ k = 5 \/ k = 6 \/
          k = 7 \/ k = 8) as Hcases by lia.
  split; [| split].
  - repeat (destruct Hcases as [-> | Hcases]; [reflexivity |]).
    subst k. reflexivity.
  - repeat (destruct Hcases as [-> | Hcases]; [reflexivity |]).
    subst k. reflexivity.
  - intros k' Hk'. rewrite (RefLibm_expf_table k') by lia.
    assert (k' = 1 \/ k' = 2 \/ k' = 3 \/ k' = 4 \/ k' = 5 \/ k' = 6 \/
            k' = 7 \/ k' = 8) as Hcases' by lia.
    repeat (destruct Hcases as [-> | Hcases];
            [ repeat (destruct Hcases' as [-> | Hcases'];
                      [first [lia | reflexivity] |]);
              subst k'; first [lia | reflexivity] |]).
    subst k. lia.
Qed.

Lemma AddImpulse_unit_bump_witness :
  exists s',
    AddImpulse RefLibm.expf 3 3 f1 2 (LiquidSim_new 7 7) = Some (tt, s') /\
    hat s' 3 3 = f1 /\
    (forall cx cy, in_window 3 3 2 cx cy = true ->
       vec_get (heightField s') (cy * 7 + cx)
       = Some (expf_at RefLibm.expf (dist2 3 3 cx cy)) /\
       flt f0 (hat s' cx cy) = true) /\
    (forall cx cy cx' cy',
       in_window 3 3 2 cx cy = true -> in_window 3 3 2 cx' cy' = true ->
       dist2 3 3 cx cy < dist2 3 3 cx' cy' ->
       flt (hat s' cx' cy') (hat s' cx cy) = true) /\
    (forall cx cy, 0 <= cx < 7 -> 0 <= cy < 7 ->
       in_window 3 3 2 cx cy = false -> hat s' cx cy = f0) /\
    velocityField s' = velocityField (LiquidSim_new 7 7).
Proof.
  apply (AddImpulse_unit_bump RefLibm.expf 7 7 3 3).
  - exact RefLibm_expf_decreases.
  - unfold_ranges. lia.
  - lia.
  - lia.
Defined.

(** C2 as it is stated fails: the cell [(5, 4)] is at the squared
    distance 5 from the centre [(3, 3)], so farther than the radius 2, and
    the impulse has raised it. *)
Lemma AddImpulse_corner_counterexample :
  exists s',
    AddImpulse RefLibm.expf 3 3 f1 2 (LiquidSim_new 7 7) = Some (tt, s') /\
    dist2 3 3 5 4 > 2 * 2 /\
    vec_get (heightField s') (4 * 7 + 5)
    = Some (S754_finite false 11017262 (-27)) /\
    hat s' 5 4 <> f0.
Proof.
  eexists. split; [vm_compute; reflexivity |].
  split; [reflexivity |]. split; [vm_compute; reflexivity |].
  vm_compute. discriminate.
Qed.
(* ===================================================================== *)
(** * Properties of the shader *)
(* ===================================================================== *)

(** ** C10 *)

Lemma blend_table_checked :
  forallb (fun chrome =>
    forallb (fun c => blend_fits chrome c) env_channels) (seqZ 0 256) = true.
Proof. vm_compute. reflexivity. Qed.

Lemma blend_in_range chrome c :
  0 <= chrome <= 255 -> In c env_channels -> blend_fits chrome c = true.
Proof.
  intros Hchrome Hc.
  pose proof blend_table_checked as Hall.
  rewrite forallb_forall in Hall.
  assert (In chrome (seqZ 0 256)) as Hin1
    by (apply list_elem_of_In, elem_of_seqZ; lia).
  specialize (Hall chrome Hin1). rewrite forallb_forall in Hall.
  apply Hall, Hc.
Qed.

Lemma to_uchar_range x n : to_uchar x = Some n -> 0 <= n <= 255.
Proof.
  unfold to_uchar. destruct (ftrunc x) as [t |]; [| discriminate].
  destruct ((0 <=? t) && (t <=? 255)) eqn:E; [| discriminate].
  intros [= <-]. lia.
Qed.

(** The channels of the six colours of the environment. *)
Lemma SampleCubemap_channels n c :
  c = Color.r (SampleCubemap n) \/ c = Color.g (SampleCubemap n) \/
  c = Color.b (SampleCubemap n) ->
  In c env_channels.
Proof.
  unfold SampleCubemap, env_channels.
  repeat match goal with
         | |- context [if ?b then _ else _] => destruct b
         end;
    cbn; intros [-> | [-> | ->]]; tauto.
Qed.

(** C10. At every pixel, once the conversion of the lifted intensity has
    given the byte [chrome], each of the three blends
    [chrome * 0.4f + c * 0.6f], for [c] the red, green and blue channel
    of the colour of the environment, is a float between [0.0f] and
    [255.0f]; its conversion to [unsigned char] is defined and the pixel
    is shaded. *)
Theorem composite_fits_in_a_byte (powf : float -> float -> float)
    (n : Vector3.t) (lightDir : Vector2.t) (chrome : Z) :
  to_uchar (chrome_level powf n lightDir) = Some chrome ->
  0 <= chrome <= 255 /\
  (forall c,
     c = Color.r (SampleCubemap n) \/ c = Color.g (SampleCubemap n) \/
     c = Color.b (SampleCubemap n) ->
     fle f0 (blend chrome c) = true /\ fle (blend chrome c) f255 = true /\
     is_Some (to_uchar (blend chrome c))) /\
  is_Some (shade powf n lightDir).
Proof.
  intros Hchrome. pose proof (to_uchar_range _ _ Hchrome) as Hrange.
  assert (forall c,
            c = Color.r (SampleCubemap n) \/ c = Color.g (SampleCubemap n) \/
            c = Color.b (SampleCubemap n) ->
            fle f0 (blend chrome c) = true /\
            fle (blend chrome c) f255 = true /\
            is_Some (to_uchar (blend chrome c))) as Hfits.
  { intros c Hc.
    pose proof (blend_in_range chrome c Hrange
                  (SampleCubemap_channels n c Hc)) as Hok.
    unfold blend_fits in Hok.
    apply andb_prop in Hok as [Hok Hsome].
    apply andb_prop in Hok as [Hlo Hhi].
    apply bool_decide_eq_true in Hsome. auto. }
  split; [exact Hrange |]. split; [exact Hfits |].
  unfold shade. rewrite Hchrome.
  destruct (Hfits _ (or_introl eq_refl)) as (_ & _ & [vr ->]).
  destruct (Hfits _ (or_intror (or_introl eq_refl))) as (_ & _ & [vg ->]).
  destruct (Hfits _ (or_intror (or_intror eq_refl))) as (_ & _ & [vb ->]).
  eexists. reflexivity.
Qed.

Lemma composite_fits_in_a_byte_witness :
  0 <= 255 <= 255 /\
  (forall c,
     c = Color.r (SampleCubemap (Vector3.mk f0 f0 f1)) \/
     c = Color.g (SampleCubemap (Vector3.mk f0 f0 f1)) \/
     c = Color.b (SampleCubemap (Vector3.mk f0 f0 f1)) ->
     fle f0 (blend 255 c) = true /\ fle (blend 255 c) f255 = true /\
     is_Some (to_uchar (blend 255 c))) /\
  is_Some (shade RefLibm.powf (Vector3.mk f0 f0 f1) (Vector2.mk f0 f0)).
Proof.
  apply (composite_fits_in_a_byte RefLibm.powf (Vector3.mk f0 f0 f1)
           (Vector2.mk f0 f0) 255).
  vm_compute. reflexivity.
Defined.

(** ** C3 *)

Lemma SFcompare_antisym a b :
  SFcompare b a = option_map CompOpp (SFcompare a b).
Proof.
  destruct a as [sa | sa | | sa ma ea], b as [sb | sb | | sb mb eb];
    cbn [SFcompare option_map];
    try (destruct sa; reflexivity); try (destruct sb; reflexivity);
    try (destruct sa, sb; reflexivity); try reflexivity.
  pose proof (Pos.compare_cont_antisym ma mb Eq) as Hm.
  cbn [CompOpp] in Hm.
  destruct sa, sb; cbn [CompOpp]; try reflexivity;
    rewrite (Z.compare_antisym ea eb);
    destruct (ea ?= eb); cbn [CompOpp]; try reflexivity;
    rewrite <- Hm; destruct (Pos.compare_cont Eq ma mb); reflexivity.
Qed.

Lemma fgt_asym a b : fgt a b = true -> fgt b a = false.
Proof.
  unfold fgt, SFltb. rewrite (SFcompare_antisym b a).
  destruct (SFcompare b a) as [[] |]; cbn; congruence.
Qed.

Lemma feq_not_fgt a b : feq a b = true -> fgt b a = false.
Proof.
  unfold feq, fgt, SFeqb, SFltb.
  destruct (SFcompare a b) as [[] |]; congruence.
Qed.

(** C3, as the code has it.  The X face is chosen only when [|x|] is
    strictly above [|y|] and [|z|]; the Y face when [|y|] is [|x|] or
    more and strictly above [|z|]; the Z face when [|z|] is [|x|] or more
    and [|y|] or more.  So a tie goes to the later axis, [z] before [y]
    and [y] before [x]: a normal with [|x| = |y| > |z|] gets a colour of
    the Y face.  On each face the sign of the component picks the
    colour. *)
Theorem SampleCubemap_picks_later_axis (n : Vector3.t) :
  let ax := fabs (Vector3.x n) in
  let ay := fabs (Vector3.y n) in
  let az := fabs (Vector3.z n) in
  (fgt ax ay = true -> fgt ax az = true ->
   SampleCubemap n = if fgt (Vector3.x n) f0 then envRight else envLeft) /\
  (fgt ay ax = true \/ feq ay ax = true -> fgt ay az = true ->
   SampleCubemap n = if fgt (Vector3.y n) f0 then envUp else envDown) /\
  (fgt az ax = true \/ feq az ax = true ->
   fgt az ay = true \/ feq az ay = true ->
   SampleCubemap n = if fgt (Vector3.z n) f0 then envFront else envBack).
Proof.
  intros ax ay az. unfold SampleCubemap. fold ax ay az.
  split; [| split].
  - intros -> ->. reflexivity.
  - intros Hyx Hyz.
    assert (fgt ax ay = false) as ->
      by (destruct Hyx; [apply fgt_asym | apply feq_not_fgt]; assumption).
    rewrite Hyz. reflexivity.
  - intros Hzx Hzy.
    assert (fgt ax az = false) as ->
      by (destruct Hzx; [apply fgt_asym | apply feq_not_fgt]; assumption).
    assert (fgt ay az = false) as ->
      by (destruct Hzy; [apply fgt_asym | apply feq_not_fgt]; assumption).
    rewrite andb_false_r. reflexivity.
Qed.

Lemma SampleCubemap_picks_later_axis_witness :
  SampleCubemap (Vector3.mk f1 f1 f0) = envUp.
Proof.
  apply (proj1 (proj2 (SampleCubemap_picks_later_axis
                         (Vector3.mk f1 f1 f0)))).
  - right. reflexivity.
  - reflexivity.
Defined.

(** C3 as it is stated fails: the normal [(1, 1, 0)] has
    [|x| = |y| > |z|] and its colour is the one of the face +Y, not one
    of the two of the X faces. *)
Lemma SampleCubemap_tie_counterexample :
  let n := Vector3.mk f1 f1 f0 in
  feq (fabs (Vector3.x n)) (fabs (Vector3.y n)) = true /\
  fgt (fabs (Vector3.y n)) (fabs (Vector3.z n)) = true /\
  SampleCubemap n = envUp /\
  SampleCubemap n <> envRight /\ SampleCubemap n <> envLeft.
Proof. repeat split; discriminate. Qed.

(** ** C7 and C8 *)

(** [RenderToImage] called [n] times in a row. *)
Lemma keeps_render_many powf lightDir n :
  keeps sim (for_loop n 0 (fun _ => RenderToImage powf lightDir)).
Proof. apply keeps_for_loop. intros _. apply keeps_RenderToImage. Qed.

(** C7. Whenever [RenderToImage] ends, the object is what it was: the
    height vector, the velocity vector and the four members of the
    configuration are unchanged, only the image has been written.  The
    same holds for any number of calls in a row. *)
Theorem RenderToImage_keeps_the_field (powf : float -> float -> float)
    (lightDir : Vector2.t) (n : nat) (w w' : World) :
  for_loop n 0 (fun _ => RenderToImage powf lightDir) w = Some (tt, w') ->
  sim w' = sim w.
Proof. apply keeps_render_many. Qed.

Lemma RenderToImage_keeps_the_field_witness : sim rendered3 = sim blank3.
Proof.
  apply (RenderToImage_keeps_the_field RefLibm.powf light_above 2
           blank3 rendered3).
  vm_compute. reflexivity.
Defined.

(** C8. When a call of [RenderToImage] ends, a second call on the object
    it leaves, with the same light and an image cleared to the same
    contents, ends with the same pixels (and the same object). *)
Theorem RenderToImage_twice_same_image (powf : float -> float -> float)
    (lightDir : Vector2.t) (s : LiquidSim) (img : Image) (w1 : World) :
  RenderToImage powf lightDir (mkWorld s img) = Some (tt, w1) ->
  RenderToImage powf lightDir (mkWorld (sim w1) img) = Some (tt, w1).
Proof.
  intros Hrun.
  rewrite (keeps_RenderToImage powf lightDir _ _ _ Hrun). exact Hrun.
Qed.

Lemma RenderToImage_twice_same_image_witness :
  RenderToImage RefLibm.powf light_above
    (mkWorld (sim rendered3) (replicate 9 black))
  = Some (tt, rendered3).
Proof.
  apply (RenderToImage_twice_same_image RefLibm.powf light_above
           bump3 (replicate 9 black) rendered3).
  vm_compute. reflexivity.
Defined.

(** ** C9 *)

Lemma raw_normal_length hL hR hU hD :
  is_finite hL = true -> is_finite hR = true ->
  is_finite hU = true -> is_finite hD = true ->
  at_least_one (length3 (raw_normal hL hR hU hD)) = true.
Proof.
  intros HL HR HU HD. unfold length3, raw_normal.
  cbn [Vector3.x Vector3.y Vector3.z].
  apply fsqrt_at_least_one.
  change (fmul f1 f1) with f1.
  apply fadd_one_at_least_one.
  apply fadd_nonneg; apply fmul_self_nonneg, fneg_not_nan, fsub_finite;
    assumption.
Qed.

Lemma raw_normal_length_not_nan hL hR hU hD :
  is_nan (fsub hR hL) = false -> is_nan (fsub hD hU) = false ->
  at_least_one (length3 (raw_normal hL hR hU hD)) = true.
Proof.
  intros Hdx Hdy. unfold length3, raw_normal.
  cbn [Vector3.x Vector3.y Vector3.z].
  apply fsqrt_at_least_one.
  change (fmul f1 f1) with f1.
  apply fadd_one_at_least_one.
  apply fadd_nonneg; apply fmul_self_nonneg, fneg_not_nan; assumption.
Qed.

Lemma raw_normal_length_nan hL hR hU hD :
  is_nan (fsub hR hL) = true \/ is_nan (fsub hD hU) = true ->
  length3 (raw_normal hL hR hU hD) = S754_nan.
Proof.
  unfold length3, raw_normal. cbn [Vector3.x Vector3.y Vector3.z].
  generalize (fsub hR hL) (fsub hD hU). intros dx dy [Hdx | Hdy].
  - destruct dx; try discriminate. reflexivity.
  - destruct dy; try discriminate. cbn [fneg SFopp].
    change (fmul S754_nan S754_nan) with S754_nan.
    destruct (fmul (fneg dx) (fneg dx)); reflexivity.
Qed.

Lemma at_least_one_not_nan y : at_least_one y = true -> is_nan y = false.
Proof. destruct y as [[] | [] | | [] m e]; try discriminate; reflexivity. Qed.

(** C9, as the code has it.  The z component of the normal is [1.0f]
    before the normalization.  Whenever neither difference of heights,
    [dx = hR - hL] and [dy = hD - hU], is NaN, so in particular when the
    four heights around the cell are finite, the length is [1.0f] or more
    (or [+inf]), so it is positive, the test [len > 0.0f] succeeds and the
    three components are divided by it.  For every four heights, finite
    or not: when the test succeeds the length is not a zero, so the
    division is never by zero; the test fails, and the normal is left as
    it is, exactly when the length is NaN, which is exactly when [dx] or
    [dy] is NaN. *)
Theorem normal_is_normalized (hL hR hU hD : float) :
  let dx := fsub hR hL in
  let dy := fsub hD hU in
  let n := raw_normal hL hR hU hD in
  let len := length3 n in
  let divided :=
    Vector3.mk (fdiv (Vector3.x n) len) (fdiv (Vector3.y n) len)
               (fdiv (Vector3.z n) len) in
  Vector3.z n = f1 /\
  (is_finite hL = true -> is_finite hR = true ->
   is_finite hU = true -> is_finite hD = true ->
   fle f1 len = true /\ fgt len f0 = true /\
   surface_normal hL hR hU hD = divided) /\
  (fgt len f0 = true ->
   is_zero len = false /\ surface_normal hL hR hU hD = divided) /\
  (fgt len f0 = false -> surface_normal hL hR hU hD = n) /\
  (is_nan dx = false -> is_nan dy = false ->
   fle f1 len = true /\ fgt len f0 = true /\
   surface_normal hL hR hU hD = divided) /\
  (fgt len f0 = false <-> len = S754_nan) /\
  (len = S754_nan <-> (is_nan dx = true \/ is_nan dy = true)).
Proof.
  intros dx dy n len divided. split; [reflexivity |].
  assert (fgt len f0 = true -> surface_normal hL hR hU hD = divided) as Hdiv.
  { intros Hgt. unfold surface_normal, normalize_if_positive.
    fold n. fold len. rewrite Hgt. reflexivity. }
  assert (is_nan dx = false -> is_nan dy = false ->
          fle f1 len = true /\ fgt len f0 = true) as Hpos.
  { intros Hdx Hdy.
    exact (at_least_one_le len
             (raw_normal_length_not_nan hL hR hU hD Hdx Hdy)). }
  assert (len = S754_nan <-> (is_nan dx = true \/ is_nan dy = true)) as Hnan.
  { split; [| apply raw_normal_length_nan].
    intros Hlen.
    destruct (is_nan dx) eqn:Hdx; [left; reflexivity |].
    destruct (is_nan dy) eqn:Hdy; [right; reflexivity |].
    pose proof (at_least_one_not_nan len
                  (raw_normal_length_not_nan hL hR hU hD Hdx Hdy)) as Hn.
    rewrite Hlen in Hn. discriminate. }
  split; [| split; [| split; [| split; [| split]]]].
  - intros HL HR HU HD.
    destruct (Hpos (fsub_finite hR hL HR HL) (fsub_finite hD hU HD HU))
      as [Hle Hlt].
    split; [exact Hle |]. split; [exact Hlt |]. apply Hdiv, Hlt.
  - intros Hgt. split; [| apply Hdiv, Hgt].
    destruct len; try reflexivity. discriminate.
  - intros Hgt. unfold surface_normal, normalize_if_positive.
    fold n. fold len. rewrite Hgt. reflexivity.
  - intros Hdx Hdy. destruct (Hpos Hdx Hdy) as [Hle Hlt].
    split; [exact Hle |]. split; [exact Hlt |]. apply Hdiv, Hlt.
  - split.
    + intros Hgt.
      destruct (is_nan dx) eqn:Hdx; [apply Hnan; left; reflexivity |].
      destruct (is_nan dy) eqn:Hdy; [apply Hnan; right; reflexivity |].
      destruct (Hpos eq_refl eq_refl) as [_ Hlt]. congruence.
    + intros ->. reflexivity.
  - exact Hnan.
Qed.

Lemma normal_is_normalized_witness :
  let n := raw_normal f0 f1 f0 f0 in
  fle f1 (length3 n) = true /\ fgt (length3 n) f0 = true /\
  surface_normal f0 f1 f0 f0
  = Vector3.mk (fdiv (Vector3.x n) (length3 n))
               (fdiv (Vector3.y n) (length3 n))
               (fdiv (Vector3.z n) (length3 n)).
Proof.
  apply (proj1 (proj2 (normal_is_normalized f0 f1 f0 f0))); reflexivity.
Defined.

(** C9 as it is stated fails.  [AddImpulse(2, 2, +inf, 1)] on the 5 by 5
    field of the constructor sets the nine cells around the centre to
    [+inf]; at the centre the difference of the heights to the right and
    to the left is NaN, so is the length, the test [len > 0.0f] fails and
    the normal is left as it is, not normalized. *)
Lemma normal_fallback_counterexample :
  exists s',
    AddImpulse RefLibm.expf 2 2 (S754_infinity false) 1 (LiquidSim_new 5 5)
    = Some (tt, s') /\
    let n := raw_normal (hat s' 1 2) (hat s' 3 2) (hat s' 2 1) (hat s' 2 3) in
    hat s' 1 2 = S754_infinity false /\ hat s' 3 2 = S754_infinity false /\
    length3 n = S754_nan /\
    fle f1 (length3 n) = false /\ fgt (length3 n) f0 = false /\
    normal_at s' 2 2 = n.
Proof.
  eexists. split; [vm_compute; reflexivity |].
  repeat split; vm_compute; reflexivity.
Qed.

(** Dividing by the length does not always give a vector of length one:
    next to a height of [FLT_MAX] the square of [dx] overflows, the length
    is [+inf] and the three quotients are zeros. *)
Example normal_beside_a_cliff :
  fgt (length3 (raw_normal f0 (S754_finite false 16777215 104) f0 f0)) f0
  = true /\
  surface_normal f0 (S754_finite false 16777215 104) f0 f0
  = Vector3.mk (S754_zero true) (S754_zero true) f0.
Proof. split; vm_compute; reflexivity. Qed.
(* ===================================================================== *)
(** * More of the wave field *)
(* ===================================================================== *)

Lemma fadd_comm a b : fadd a b = fadd b a.
Proof.
  destruct a as [sa | sa | | sa ma ea], b as [sb | sb | | sb mb eb];
    try reflexivity; try (destruct sa, sb; reflexivity).
  unfold fadd. cbn [SFadd]. rewrite (Z.min_comm eb ea). f_equal.
  apply Z.add_comm.
Qed.

Lemma fsub_self c : is_finite c = true -> fsub c c = f0.
Proof.
  destruct c as [s | s | | s m e]; try discriminate; intros _.
  - destruct s; reflexivity.
  - unfold fsub. cbn [SFsub]. rewrite Z.sub_diag. reflexivity.
Qed.

(** ** [idx] *)

(** X1. On an object with vectors of [width * height] elements, that
    number being an [int], [idx] sends every cell of the grid to an index
    inside the two vectors, computed without overflow, two different cells
    of the grid to two different indices, and every index of the vectors
    is the one of some cell: the cell [(k mod width, k / width)]. *)
Theorem idx_is_one_to_one (s : LiquidSim) :
  wf s -> sizes_in_range (width s) (height s) ->
  (forall x y, 0 <= x < width s -> 0 <= y < height s ->
     exists k, idx x y s = Some (k, s) /\
       in_int (y * width s) /\ in_int k /\
       0 <= k < Z.of_nat (length (heightField s)) /\
       0 <= k < Z.of_nat (length (velocityField s))) /\
  (forall x y x' y' k,
     0 <= x < width s -> 0 <= y < height s ->
     0 <= x' < width s -> 0 <= y' < height s ->
     idx x y s = Some (k, s) -> idx x' y' s = Some (k, s) ->
     x = x' /\ y = y') /\
  (forall k, 0 <= k < Z.of_nat (length (heightField s)) ->
     0 <= k mod width s < width s /\ 0 <= k / width s < height s /\
     idx (k mod width s) (k / width s) s = Some (k, s)).
Proof.
  intros [Hw Hh Hlh Hlv] Hsizes. split; [| split].
  - intros x y Hx Hy. exists (y * width s + x). split; [reflexivity |].
    destruct (idx_ints_in_range _ _ x y Hsizes Hx Hy) as [Hp Hk].
    split; [exact Hp |]. split; [exact Hk |].
    pose proof (idx_bounds (width s) (height s) x y Hx Hy). lia.
  - intros x y x' y' k Hx Hy Hx' Hy' [= Hk] [= Hk'].
    apply (idx_inj (width s)); [assumption | assumption | lia].
  - intros k Hk. rewrite Hlh in Hk.
    assert (0 < width s) as Hwpos.
    { destruct (Z.eq_dec (width s) 0) as [E |]; [| lia].
      rewrite E, Z.mul_0_l in Hk. cbn in Hk. lia. }
    assert (0 <= k < width s * height s) as Hk' by lia.
    pose proof (Z.div_mod k (width s) ltac:(lia)) as Hdm.
    pose proof (Z.mod_pos_bound k (width s) Hwpos) as Hmod.
    split; [exact Hmod |]. split.
    + split; [apply Z.div_pos; lia |].
      apply Z.div_lt_upper_bound; lia.
    + unfold idx, bind, gets, ret. do 2 f_equal. lia.
Qed.

Lemma idx_is_one_to_one_witness :
  wf bump5 /\ sizes_in_range (width bump5) (height bump5) /\
  0 <= 13 mod width bump5 < width bump5 /\
  0 <= 13 / width bump5 < height bump5 /\
  idx (13 mod width bump5) (13 / width bump5) bump5 = Some (13, bump5).
Proof.
  assert (wf bump5) as Hwf by (split; cbn; lia).
  assert (sizes_in_range (width bump5) (height bump5)) as Hsizes
    by (unfold_ranges; cbn; lia).
  split; [exact Hwf |]. split; [exact Hsizes |].
  apply (proj2 (proj2 (idx_is_one_to_one bump5 Hwf Hsizes))). cbn. lia.
Defined.

(** ** The field at rest *)

Lemma LiquidSim_eq s s' :
  same_config s s' -> heightField s' = heightField s ->
  velocityField s' = velocityField s -> s' = s.
Proof.
  intros (Hw & Hh & Hk & Hd) Hhf Hvf. destruct s, s'. cbn in *. congruence.
Qed.

Lemma vat_new w h cx cy :
  0 <= cx < w -> 0 <= cy < h -> vat (LiquidSim_new w h) cx cy = f0.
Proof.
  intros Hx Hy. unfold vat. cbn [width velocityField LiquidSim_new].
  destruct (grid_is_replicate w h f0) as [_ Hget].
  rewrite (Hget cx cy Hx Hy). reflexivity.
Qed.

Lemma Step_new w h :
  0 <= w -> 0 <= h ->
  Step (LiquidSim_new w h) = Some (tt, LiquidSim_new w h).
Proof.
  intros Hw Hh. pose proof (wf_new w h Hw Hh) as Hwf.
  destruct (Step_runs _ Hwf) as ([] & s' & Hrun & Hc & Hv & Hhf).
  rewrite Hrun. do 2 f_equal.
  cbn [width height LiquidSim_new] in Hv, Hhf.
  assert (forall cx cy, 0 <= cx < w -> 0 <= cy < h ->
            interior w h cx cy = true ->
            step_velocity (LiquidSim_new w h) cx cy = f0) as Hsv.
  { intros cx cy Hx Hy Hin. unfold interior in Hin.
    unfold step_velocity, force.
    rewrite vat_new, !hat_new by lia. reflexivity. }
  apply LiquidSim_eq; [exact Hc | |].
  - apply (grid_is_unique w h _ _ (fun _ _ => f0) Hw);
      [| apply grid_is_replicate].
    revert Hhf. apply grid_is_ext. intros cx cy Hx Hy.
    destruct (interior w h cx cy) eqn:Hin; [| apply hat_new; assumption].
    unfold step_height. rewrite Hsv, hat_new by assumption. reflexivity.
  - apply (grid_is_unique w h _ _ (fun _ _ => f0) Hw);
      [| apply grid_is_replicate].
    revert Hv. apply grid_is_ext. intros cx cy Hx Hy.
    destruct (interior w h cx cy) eqn:Hin; [| apply vat_new; assumption].
    apply Hsv; assumption.
Qed.

(** X2. The field the constructor makes, for sizes whose product is an
    [int], is at rest: any number of calls of [Step] on it end without a
    fault and give back the very same object, all heights and velocities
    [+0.0f]. *)
Theorem fresh_field_stays_at_rest (w h : Z) (n : nat) :
  0 <= w -> 0 <= h -> sizes_in_range w h ->
  for_loop n 0 (fun _ => Step) (LiquidSim_new w h)
  = Some (tt, LiquidSim_new w h).
Proof.
  intros Hw Hh _. generalize 0. induction n as [| n IH]; intros i.
  - reflexivity.
  - cbn [for_loop]. unfold bind. rewrite Step_new by assumption. apply IH.
Qed.

Lemma fresh_field_stays_at_rest_witness :
  for_loop 3 0 (fun _ => Step) (LiquidSim_new 200 200)
  = Some (tt, LiquidSim_new 200 200).
Proof.
  apply (fresh_field_stays_at_rest 200 200 3); try lia.
  unfold_ranges. lia.
Defined.

(** ** [AddImpulse] on any field *)

(** X3. On an object with vectors of [width * height] elements, that
    number being an [int], and for every amount and every centre and
    radius that keep the [int] arithmetic of the loops in range
    ([x - radius], [x + radius], [y - radius], [y + radius], [radius + 1]
    and [2 * radius * radius] are [int]s), [AddImpulse] ends without a
    fault.  It changes neither the configuration nor the velocity vector nor the
    length of the height vector.  A cell gets
    [amount * exp(-0.5 * (i*i + j*j))] added to its height, once, when it
    is in the square of the radius around the centre and strictly inside
    the outer ring; every other cell keeps its height. *)
Theorem AddImpulse_adds_inside_the_window (expf : float -> float)
    (x y : Z) (amount : float) (radius : Z) (s : LiquidSim) :
  wf s -> sizes_in_range (width s) (height s) ->
  impulse_in_range x y radius ->
  exists s', AddImpulse expf x y amount radius s = Some (tt, s') /\
    wf s' /\ same_config s s' /\
    velocityField s' = velocityField s /\
    forall cx cy, 0 <= cx < width s -> 0 <= cy < height s ->
      vec_get (heightField s') (cy * width s + cx)
      = Some (if in_window x y radius cx cy
                 && interior (width s) (height s) cx cy
              then fadd (hat s cx cy)
                        (fmul amount (falloff expf (cx - x) (cy - y)))
              else hat s cx cy).
Proof.
  intros Hwf _ _.
  destruct (AddImpulse_cells expf x y amount radius s Hwf)
    as (s' & Hrun & Hwf' & Hc & Hv & Hcells).
  exists s'. repeat (split; [assumption |]).
  intros cx cy Hx Hy.
  destruct Hc as (Hw & Hh & _). rewrite <- Hw.
  rewrite (wf_cell_height s' cx cy Hwf') by lia.
  rewrite Hw, (Hcells cx cy Hx Hy). reflexivity.
Qed.

Lemma AddImpulse_adds_inside_the_window_witness :
  exists s', AddImpulse RefLibm.expf 4 1 click_amount 3 bump5
             = Some (tt, s') /\
    wf s' /\ same_config bump5 s' /\
    velocityField s' = velocityField bump5 /\
    forall cx cy, 0 <= cx < width bump5 -> 0 <= cy < height bump5 ->
      vec_get (heightField s') (cy * width bump5 + cx)
      = Some (if in_window 4 1 3 cx cy
                 && interior (width bump5) (height bump5) cx cy
              then fadd (hat bump5 cx cy)
                        (fmul click_amount
                              (falloff RefLibm.expf (cx - 4) (cy - 1)))
              else hat bump5 cx cy).
Proof.
  apply (AddImpulse_adds_inside_the_window RefLibm.expf 4 1 click_amount 3
           bump5).
  - split; cbn; lia.
  - unfold_ranges. cbn. lia.
  - unfold_ranges. lia.
Defined.

(** Two additions to [+0.0f], in either order. *)
Lemma fadd_zero_twice a b : fadd (fadd f0 a) b = fadd (fadd f0 b) a.
Proof.
  destruct a as [sa | sa | | sa ma ea], b as [sb | sb | | sb mb eb];
    try reflexivity; try (destruct sa, sb; reflexivity);
    try (destruct sa; reflexivity); try (destruct sb; reflexivity).
  exact (fadd_comm (S754_finite sa ma ea) (S754_finite sb mb eb)).
Qed.

(** X4. On the field the constructor makes, for sizes whose product is
    an [int], two calls of [AddImpulse] whose centres and radii keep the
    [int] arithmetic of the loops in range commute: in either order they
    end without a fault with the same object (a NaN being one value, as
    everywhere in the embedding). *)
Theorem AddImpulse_commutes_on_fresh_field (expf : float -> float)
    (w h x1 y1 : Z) (a1 : float) (r1 x2 y2 : Z) (a2 : float) (r2 : Z) :
  0 <= w -> 0 <= h -> sizes_in_range w h ->
  impulse_in_range x1 y1 r1 -> impulse_in_range x2 y2 r2 ->
  exists s',
    (AddImpulse expf x1 y1 a1 r1 ;;; AddImpulse expf x2 y2 a2 r2)
      (LiquidSim_new w h) = Some (tt, s') /\
    (AddImpulse expf x2 y2 a2 r2 ;;; AddImpulse expf x1 y1 a1 r1)
      (LiquidSim_new w h) = Some (tt, s').
Proof.
  intros Hw Hh _ _ _. pose proof (wf_new w h Hw Hh) as Hwf.
  set (s0 := LiquidSim_new w h) in *.
  destruct (AddImpulse_cells expf x1 y1 a1 r1 s0 Hwf)
    as (sa & Hra & Hwfa & Hca & Hva & Hha).
  destruct (AddImpulse_cells expf x2 y2 a2 r2 sa Hwfa)
    as (sab & Hrab & Hwfab & Hcab & Hvab & Hhab).
  destruct (AddImpulse_cells expf x2 y2 a2 r2 s0 Hwf)
    as (sb & Hrb & Hwfb & Hcb & Hvb & Hhb).
  destruct (AddImpulse_cells expf x1 y1 a1 r1 sb Hwfb)
    as (sba & Hrba & Hwfba & Hcba & Hvba & Hhba).
  exists sab. unfold bind. rewrite Hra, Hrab, Hrb, Hrba.
  split; [reflexivity |]. do 2 f_equal.
  pose proof (same_config_trans _ _ _ Hca Hcab) as Hc1.
  pose proof (same_config_trans _ _ _ Hcb Hcba) as Hc2.
  destruct Hca as (Hwa & Hha' & _). destruct Hcb as (Hwb & Hhb' & _).
  cbn [width height LiquidSim_new s0] in *.
  rewrite Hwa, Hha' in Hhab. rewrite Hwb, Hhb' in Hhba.
  assert (forall cx cy, 0 <= cx < w -> 0 <= cy < h ->
            hat sba cx cy = hat sab cx cy) as Hsame.
  { intros cx cy Hx Hy.
    rewrite (Hhab cx cy Hx Hy), (Hhba cx cy Hx Hy).
    unfold impulse_height.
    rewrite (Hha cx cy Hx Hy), (Hhb cx cy Hx Hy).
    unfold impulse_height. unfold s0. rewrite hat_new by assumption.
    destruct (in_window x1 y1 r1 cx cy && interior w h cx cy);
      destruct (in_window x2 y2 r2 cx cy && interior w h cx cy);
      try reflexivity.
    apply fadd_zero_twice. }
  apply LiquidSim_eq.
  - destruct Hc1 as (? & ? & ? & ?). destruct Hc2 as (? & ? & ? & ?).
    repeat split; congruence.
  - destruct Hc1 as (Hw1 & Hh1 & _). destruct Hc2 as (Hw2 & Hh2 & _).
    cbn [width height LiquidSim_new] in Hw1, Hh1, Hw2, Hh2.
    pose proof (wf_heights sab Hwfab) as G1.
    pose proof (wf_heights sba Hwfba) as G2.
    rewrite Hw1, Hh1 in G1. rewrite Hw2, Hh2 in G2.
    apply (grid_is_unique w h _ _ (hat sab) Hw); [| exact G1].
    revert G2. apply grid_is_ext. exact Hsame.
  - congruence.
Qed.

Lemma AddImpulse_commutes_on_fresh_field_witness :
  exists s',
    (AddImpulse RefLibm.expf 2 2 f1 2 ;;;
     AddImpulse RefLibm.expf 3 1 click_amount 3)
      (LiquidSim_new 6 5) = Some (tt, s') /\
    (AddImpulse RefLibm.expf 3 1 click_amount 3 ;;;
     AddImpulse RefLibm.expf 2 2 f1 2)
      (LiquidSim_new 6 5) = Some (tt, s').
Proof.
  apply (AddImpulse_commutes_on_fresh_field RefLibm.expf 6 5);
    try lia; unfold_ranges; lia.
Defined.

(** ** [Step] on any field *)

(** X5. On an object with vectors of [width * height] elements, [Step]
    ends without a fault; the object still has vectors of that size, its
    four configuration members are what they were, and every cell that is
    not strictly inside the outer ring holds the height and the velocity
    it held. *)
Theorem Step_keeps_shape_and_ring (s : LiquidSim) :
  wf s ->
  exists s', Step s = Some (tt, s') /\ wf s' /\ same_config s s' /\
    forall cx cy, 0 <= cx < width s -> 0 <= cy < height s ->
      interior (width s) (height s) cx cy = false ->
      vec_get (heightField s') (cy * width s + cx)
      = vec_get (heightField s) (cy * width s + cx) /\
      vec_get (velocityField s') (cy * width s + cx)
      = vec_get (velocityField s) (cy * width s + cx).
Proof.
  intros Hwf. destruct (Step_cells s Hwf) as (s' & Hrun & Hwf' & Hc & Hcells).
  exists s'. repeat (split; [assumption |]).
  intros cx cy Hx Hy Hout. destruct (Hcells cx cy Hx Hy) as [Hv Hh].
  rewrite Hout in Hv, Hh. destruct Hc as (Hw & Hhh & _).
  rewrite (wf_cell_height s cx cy Hwf), (wf_cell_velocity s cx cy Hwf)
    by assumption.
  rewrite <- Hw.
  rewrite (wf_cell_height s' cx cy Hwf'), (wf_cell_velocity s' cx cy Hwf')
    by lia.
  rewrite Hv, Hh. split; reflexivity.
Qed.

Lemma Step_keeps_shape_and_ring_witness :
  exists s', Step bump5 = Some (tt, s') /\ wf s' /\ same_config bump5 s' /\
    forall cx cy, 0 <= cx < width bump5 -> 0 <= cy < height bump5 ->
      interior (width bump5) (height bump5) cx cy = false ->
      vec_get (heightField s') (cy * width bump5 + cx)
      = vec_get (heightField bump5) (cy * width bump5 + cx) /\
      vec_get (velocityField s') (cy * width bump5 + cx)
      = vec_get (velocityField bump5) (cy * width bump5 + cx).
Proof. apply (Step_keeps_shape_and_ring bump5). split; cbn; lia. Defined.

(** ** Grids without an interior *)

Lemma for_interior_skip {St} (dims : St -> Z * Z)
    (body : Z -> Z -> M St unit) (s : St) :
  fst (dims s) <= 2 \/ snd (dims s) <= 2 ->
  for_interior dims body s = Some (tt, s).
Proof.
  intros Hsmall. unfold for_interior, bind, gets.
  apply for_range_skip. intros y Hy.
  apply for_range_skip. intros x Hx. lia.
Qed.

(** X6. When [width] or [height] is 2 or less (and [width - 1] and
    [height - 1], the bounds of the loops, are [int]s) there is no
    interior cell: [Step] ends without a fault and without reading either
    vector, and returns the object as it was, whatever the two vectors
    hold. *)
Theorem Step_without_interior (s : LiquidSim) :
  dims_in_range (width s) (height s) ->
  width s <= 2 \/ height s <= 2 -> Step s = Some (tt, s).
Proof.
  intros _ Hsmall. unfold Step, bind.
  rewrite for_interior_skip by exact Hsmall.
  apply for_interior_skip. exact Hsmall.
Qed.

Lemma Step_without_interior_witness :
  Step (mkLiquidSim 2 7 f0_2 f0_985 [f1] [])
  = Some (tt, mkLiquidSim 2 7 f0_2 f0_985 [f1] []).
Proof.
  apply (Step_without_interior (mkLiquidSim 2 7 f0_2 f0_985 [f1] [])).
  - unfold_ranges. cbn. lia.
  - left. cbn. lia.
Defined.

(** ** Left and right *)





(** Up and down are not alike: the sum of the four neighbours is taken
    left, right, up, down, and the rounding of the partial sums depends
    on that order. *)
Example force_is_not_symmetric_up_down :
  let tiny := S754_finite false 8388608 (-47) in
  fadd (fadd (fadd tiny f0) tiny) f1 <> fadd (fadd (fadd tiny f0) f1) tiny.
Proof. vm_compute. discriminate. Qed.

(* ===================================================================== *)
(** * More of the shader *)
(* ===================================================================== *)

Lemma level_cell_faces_the_viewer_aux (a b : float) :
  is_finite a = true -> is_finite b = true ->
  surface_normal a a b b = normal_up.
Proof.
  intros Ha Hb. unfold surface_normal, raw_normal.
  rewrite (fsub_self a Ha), (fsub_self b Hb). reflexivity.
Qed.

(** X8. A cell whose left and right neighbours have the same finite
    height, and whose upper and lower neighbours have the same finite
    height, gets the normal [(-0, -0, 1)], of length exactly [1.0f], and
    the colour of the face +Z of the environment. *)
Theorem level_cell_faces_the_viewer (a b : float) :
  is_finite a = true -> is_finite b = true ->
  length3 (raw_normal a a b b) = f1 /\
  surface_normal a a b b = normal_up /\
  SampleCubemap (surface_normal a a b b) = envFront.
Proof.
  intros Ha Hb. unfold surface_normal, raw_normal.
  rewrite (fsub_self a Ha), (fsub_self b Hb).
  repeat split; reflexivity.
Qed.

Lemma level_cell_faces_the_viewer_witness :
  length3 (raw_normal f0_5 f0_5 (fneg f4) (fneg f4)) = f1 /\
  surface_normal f0_5 f0_5 (fneg f4) (fneg f4) = normal_up /\
  SampleCubemap (surface_normal f0_5 f0_5 (fneg f4) (fneg f4)) = envFront.
Proof.
  apply (level_cell_faces_the_viewer f0_5 (fneg f4)); reflexivity.
Defined.

Lemma shade_alpha powf n lightDir c :
  shade powf n lightDir = Some c -> Color.a c = 180.
Proof.
  unfold shade.
  destruct (to_uchar (chrome_level powf n lightDir)); [| discriminate].
  destruct (to_uchar (blend z (Color.r (SampleCubemap n))));
    [| discriminate].
  destruct (to_uchar (blend z (Color.g (SampleCubemap n))));
    [| discriminate].
  destruct (to_uchar (blend z (Color.b (SampleCubemap n))));
    [| discriminate].
  intros [= <-]. reflexivity.
Qed.

(** X9. On an object with vectors of [width * height] elements, an image
    of as many pixels and a frame in which every conversion to
    [unsigned char] is defined, [RenderToImage] ends without a fault.  The
    object is what it was and the image has as many pixels as before.  A
    pixel strictly inside the outer ring is the shade of the normal of its
    cell, with the alpha 180; every other pixel is what it was. *)
Theorem RenderToImage_writes_the_interior (powf : float -> float -> float)
    (lightDir : Vector2.t) (s : LiquidSim) (img : Image) :
  wf s -> length img = Z.to_nat (width s * height s) ->
  shadeable powf lightDir s ->
  exists w', RenderToImage powf lightDir (mkWorld s img) = Some (tt, w') /\
    sim w' = s /\ length (pixels w') = length img /\
    forall cx cy, 0 <= cx < width s -> 0 <= cy < height s ->
      if interior (width s) (height s) cx cy then
        exists c, vec_get (pixels w') (cy * width s + cx) = Some c /\
                  shade powf (normal_at s cx cy) lightDir = Some c /\
                  Color.a c = 180
      else vec_get (pixels w') (cy * width s + cx)
           = vec_get img (cy * width s + cx).
Proof.
  intros Hwf Hlen Hsh.
  pose proof (grid_is_self black _ _ img (wf_width s Hwf) (wf_height s Hwf)
                Hlen) as Himg.
  destruct (RenderToImage_runs powf lightDir s _ img Hwf Hsh Himg)
    as ([] & w' & Hrun & Hsim & Hlen' & Hpix).
  exists w'. split; [exact Hrun |]. split; [exact Hsim |].
  split; [congruence |].
  intros cx cy Hx Hy. rewrite (Hpix cx cy Hx Hy).
  destruct (interior (width s) (height s) cx cy) eqn:Hin.
  - destruct (Hsh cx cy Hin) as [c Hc]. exists c.
    unfold pixel_at. rewrite Hc. split; [reflexivity |].
    split; [reflexivity |]. exact (shade_alpha _ _ _ _ Hc).
  - destruct Himg as [_ Hget]. rewrite (Hget cx cy Hx Hy). reflexivity.
Qed.

Lemma shadeable_bump3 : shadeable RefLibm.powf light_above bump3.
Proof.
  intros cx cy Hin. unfold interior in Hin. cbn [width height bump3] in Hin.
  assert (cx = 1 /\ cy = 1) as [-> ->] by lia.
  vm_compute. eexists. reflexivity.
Qed.

Lemma RenderToImage_writes_the_interior_witness :
  exists w',
    RenderToImage RefLibm.powf light_above (mkWorld bump3 (replicate 9 black))
    = Some (tt, w') /\
    sim w' = bump3 /\ length (pixels w') = length (replicate 9 black) /\
    forall cx cy, 0 <= cx < width bump3 -> 0 <= cy < height bump3 ->
      if interior (width bump3) (height bump3) cx cy then
        exists c, vec_get (pixels w') (cy * width bump3 + cx) = Some c /\
                  shade RefLibm.powf (normal_at bump3 cx cy) light_above
                  = Some c /\
                  Color.a c = 180
      else vec_get (pixels w') (cy * width bump3 + cx)
           = vec_get (replicate 9 black) (cy * width bump3 + cx).
Proof.
  apply (RenderToImage_writes_the_interior RefLibm.powf light_above bump3
           (replicate 9 black)).
  - split; cbn; lia.
  - reflexivity.
  - exact shadeable_bump3.
Defined.

(** The image that [RenderToImage] leaves, as one fact. *)
Lemma RenderToImage_result powf lightDir s img p0 :
  wf s -> shadeable powf lightDir s ->
  grid_is (width s) (height s) img p0 ->
  exists p',
    RenderToImage powf lightDir (mkWorld s img) = Some (tt, mkWorld s p') /\
    grid_is (width s) (height s) p'
      (fun cx cy => if interior (width s) (height s) cx cy
                    then pixel_at powf lightDir s p0 cx cy else p0 cx cy).
Proof.
  intros Hwf Hsh Himg.
  destruct (RenderToImage_runs powf lightDir s p0 img Hwf Hsh Himg)
    as ([] & [s' p'] & Hrun & Hsim & Hpix).
  cbn [sim pixels] in Hsim, Hpix. subst s'. exists p'. split; assumption.
Qed.

(** X10. [RenderToImage] twice in a row, without clearing the image in
    between, leaves the image of the first call: the second call writes
    the same pixels again. *)
Theorem RenderToImage_is_idempotent (powf : float -> float -> float)
    (lightDir : Vector2.t) (s : LiquidSim) (img : Image) :
  wf s -> length img = Z.to_nat (width s * height s) ->
  shadeable powf lightDir s ->
  exists w', RenderToImage powf lightDir (mkWorld s img) = Some (tt, w') /\
             RenderToImage powf lightDir w' = Some (tt, w').
Proof.
  intros Hwf Hlen Hsh.
  pose proof (grid_is_self black _ _ img (wf_width s Hwf) (wf_height s Hwf)
                Hlen) as Himg.
  destruct (RenderToImage_result powf lightDir s img _ Hwf Hsh Himg)
    as (p1 & Hrun1 & Hp1).
  destruct (RenderToImage_result powf lightDir s p1 _ Hwf Hsh Hp1)
    as (p2 & Hrun2 & Hp2).
  exists (mkWorld s p1). split; [exact Hrun1 |].
  rewrite Hrun2. do 3 f_equal.
  apply (grid_is_unique _ _ _ _ _ (wf_width s Hwf) Hp2).
  revert Hp1. apply grid_is_ext. intros cx cy Hx Hy.
  destruct (interior (width s) (height s) cx cy) eqn:Hin; [| reflexivity].
  unfold pixel_at. destruct (Hsh cx cy Hin) as [c ->]. reflexivity.
Qed.

Lemma RenderToImage_is_idempotent_witness :
  exists w',
    RenderToImage RefLibm.powf light_above (mkWorld bump3 (replicate 9 black))
    = Some (tt, w') /\
    RenderToImage RefLibm.powf light_above w' = Some (tt, w').
Proof.
  apply (RenderToImage_is_idempotent RefLibm.powf light_above bump3
           (replicate 9 black)).
  - split; cbn; lia.
  - reflexivity.
  - exact shadeable_bump3.
Defined.

Lemma same_heights_hat s1 s2 cx cy :
  width s2 = width s1 -> heightField s2 = heightField s1 ->
  hat s2 cx cy = hat s1 cx cy.
Proof. intros Hw Hh. unfold hat. rewrite Hw, Hh. reflexivity. Qed.

(** X11. The image depends on the heights only: two objects with the
    same [width], [height] and height vector, whatever their velocities,
    stiffness and damping, are rendered to the same pixels. *)
Theorem RenderToImage_reads_heights_only (powf : float -> float -> float)
    (lightDir : Vector2.t) (s1 s2 : LiquidSim) (img : Image) :
  wf s1 -> wf s2 ->
  width s2 = width s1 -> height s2 = height s1 ->
  heightField s2 = heightField s1 ->
  length img = Z.to_nat (width s1 * height s1) ->
  shadeable powf lightDir s1 ->
  exists p',
    RenderToImage powf lightDir (mkWorld s1 img) = Some (tt, mkWorld s1 p') /\
    RenderToImage powf lightDir (mkWorld s2 img) = Some (tt, mkWorld s2 p').
Proof.
  intros Hwf1 Hwf2 Hw Hh Hhf Hlen Hsh1.
  pose proof (grid_is_self black _ _ img (wf_width s1 Hwf1)
                (wf_height s1 Hwf1) Hlen) as Himg.
  assert (forall cx cy, normal_at s2 cx cy = normal_at s1 cx cy) as Hn.
  { intros. unfold normal_at.
    rewrite !(same_heights_hat s1 s2) by assumption. reflexivity. }
  assert (shadeable powf lightDir s2) as Hsh2.
  { intros cx cy Hin. rewrite Hw, Hh in Hin. rewrite Hn.
    apply Hsh1, Hin. }
  destruct (RenderToImage_result powf lightDir s1 img _ Hwf1 Hsh1 Himg)
    as (p1 & Hrun1 & Hp1).
  pose proof Himg as Himg2. rewrite <- Hw, <- Hh in Himg2.
  destruct (RenderToImage_result powf lightDir s2 img _ Hwf2 Hsh2 Himg2)
    as (p2 & Hrun2 & Hp2).
  exists p1. split; [exact Hrun1 |]. rewrite Hrun2. do 3 f_equal.
  rewrite Hw, Hh in Hp2.
  apply (grid_is_unique _ _ _ _ _ (wf_width s1 Hwf1) Hp2).
  revert Hp1. apply grid_is_ext. intros cx cy Hx Hy.
  unfold pixel_at. rewrite Hn. reflexivity.
Qed.

Lemma RenderToImage_reads_heights_only_witness :
  exists p',
    RenderToImage RefLibm.powf light_above (mkWorld bump3 (replicate 9 black))
    = Some (tt, mkWorld bump3 p') /\
    RenderToImage RefLibm.powf light_above
      (mkWorld (mkLiquidSim 3 3 f1 f0 (heightField bump3) (replicate 9 f4))
               (replicate 9 black))
    = Some (tt, mkWorld
                  (mkLiquidSim 3 3 f1 f0 (heightField bump3) (replicate 9 f4))
                  p').
Proof.
  apply (RenderToImage_reads_heights_only RefLibm.powf light_above bump3
           (mkLiquidSim 3 3 f1 f0 (heightField bump3) (replicate 9 f4))
           (replicate 9 black)).
  - split; cbn; lia.
  - split; cbn; lia.
  - reflexivity.
  - reflexivity.
  - reflexivity.
  - reflexivity.
  - exact shadeable_bump3.
Defined.

(** X12. A level field is rendered in one colour.  When every cell holds
    the same finite height and the shade of the normal [(-0, -0, 1)] is
    defined, [RenderToImage] ends and every pixel strictly inside the
    outer ring is that one shade. *)
Theorem level_field_renders_uniform (powf : float -> float -> float)
    (lightDir : Vector2.t) (s : LiquidSim) (img : Image)
    (level : float) (c : Color.t) :
  wf s -> length img = Z.to_nat (width s * height s) ->
  is_finite level = true ->
  (forall cx cy, 0 <= cx < width s -> 0 <= cy < height s ->
     hat s cx cy = level) ->
  shade powf normal_up lightDir = Some c ->
  exists w', RenderToImage powf lightDir (mkWorld s img) = Some (tt, w') /\
    forall cx cy, interior (width s) (height s) cx cy = true ->
      vec_get (pixels w') (cy * width s + cx) = Some c.
Proof.
  intros Hwf Hlen Hfin Hlevel Hc.
  assert (forall cx cy, interior (width s) (height s) cx cy = true ->
            normal_at s cx cy = normal_up) as Hn.
  { intros cx cy Hin. unfold interior in Hin. unfold normal_at.
    rewrite !Hlevel by lia.
    apply (level_cell_faces_the_viewer_aux level level Hfin Hfin). }
  assert (shadeable powf lightDir s) as Hsh.
  { intros cx cy Hin. rewrite (Hn cx cy Hin), Hc. eexists. reflexivity. }
  pose proof (grid_is_self black _ _ img (wf_width s Hwf) (wf_height s Hwf)
                Hlen) as Himg.
  destruct (RenderToImage_result powf lightDir s img _ Hwf Hsh Himg)
    as (p' & Hrun & [_ Hget]).
  exists (mkWorld s p'). split; [exact Hrun |].
  intros cx cy Hin. cbn [pixels].
  assert (0 <= cx < width s /\ 0 <= cy < height s) as [Hx Hy]
    by (unfold interior in Hin; lia).
  rewrite (Hget cx cy Hx Hy), Hin. unfold pixel_at.
  rewrite (Hn cx cy Hin), Hc. reflexivity.
Qed.

Lemma level_field_renders_uniform_witness :
  exists w',
    RenderToImage RefLibm.powf light_above
      (mkWorld (LiquidSim_new 4 4) (replicate 16 black)) = Some (tt, w') /\
    forall cx cy,
      interior (width (LiquidSim_new 4 4)) (height (LiquidSim_new 4 4)) cx cy
      = true ->
      vec_get (pixels w') (cy * width (LiquidSim_new 4 4) + cx)
      = Some (Color.mk 174 180 192 180).
Proof.
  apply (level_field_renders_uniform RefLibm.powf light_above
           (LiquidSim_new 4 4) (replicate 16 black) f0).
  - apply wf_new; lia.
  - reflexivity.
  - reflexivity.
  - intros cx cy Hx Hy. apply hat_new; assumption.
  - vm_compute. reflexivity.
Defined.

(** X13. When [width] or [height] is 2 or less (and [width - 1] and
    [height - 1], the bounds of the loops, are [int]s), [RenderToImage]
    ends without a fault and without touching the image or reading the
    height vector: the object and the image are what they were, whatever
    the lengths of the vectors and of the image. *)
Theorem RenderToImage_without_interior (powf : float -> float -> float)
    (lightDir : Vector2.t) (w : World) :
  dims_in_range (width (sim w)) (height (sim w)) ->
  width (sim w) <= 2 \/ height (sim w) <= 2 ->
  RenderToImage powf lightDir w = Some (tt, w).
Proof. intros _ Hsmall. apply for_interior_skip. exact Hsmall. Qed.

Lemma RenderToImage_without_interior_witness :
  RenderToImage RefLibm.powf light_above
    (mkWorld (LiquidSim_new 9 2) [black])
  = Some (tt, mkWorld (LiquidSim_new 9 2) [black]).
Proof.
  apply (RenderToImage_without_interior RefLibm.powf light_above
           (mkWorld (LiquidSim_new 9 2) [black])).
  - unfold_ranges. cbn. lia.
  - right. cbn. lia.
Defined.

(* ===================================================================== *)
(** * The main loop *)
(* ===================================================================== *)

(** ** The status bar *)

Lemma fade_table_checked :
  forallb (fun a =>
    bool_decide
      (to_uchar (Clamp (of_int (a + 5)) (of_int 0) (of_int 255))
       = Some (Z.min (a + 5) 255)) &&
    bool_decide
      (to_uchar (Clamp (of_int (a - 5)) (of_int 0) (of_int 255))
       = Some (Z.max (a - 5) 0))) (seqZ 0 256) = true.
Proof. vm_compute. reflexivity. Qed.

Lemma fade_up a :
  0 <= a <= 255 ->
  to_uchar (Clamp (of_int (a + 5)) (of_int 0) (of_int 255))
  = Some (Z.min (a + 5) 255).
Proof.
  intros Ha. pose proof fade_table_checked as Hall.
  rewrite forallb_forall in Hall.
  specialize (Hall a ltac:(apply list_elem_of_In, elem_of_seqZ; lia)).
  apply andb_prop in Hall as [Hup _].
  apply bool_decide_eq_true in Hup. exact Hup.
Qed.

Lemma fade_down a :
  0 <= a <= 255 ->
  to_uchar (Clamp (of_int (a - 5)) (of_int 0) (of_int 255))
  = Some (Z.max (a - 5) 0).
Proof.
  intros Ha. pose proof fade_table_checked as Hall.
  rewrite forallb_forall in Hall.
  specialize (Hall a ltac:(apply list_elem_of_In, elem_of_seqZ; lia)).
  apply andb_prop in Hall as [_ Hdown].
  apply bool_decide_eq_true in Hdown. exact Hdown.
Qed.

Lemma fade_value a t :
  0 <= a <= 255 ->
  fade a t = Some (if a <? t then Z.min (a + 5) 255
                   else if t <? a then Z.max (a - 5) 0 else a).
Proof.
  intros Ha. unfold fade.
  destruct (a <? t); [apply fade_up, Ha |].
  destruct (t <? a); [apply fade_down, Ha | reflexivity].
Qed.

(** X14. The fade of the status bar never leaves the range of a byte.
    For a [statusAlpha] from 0 to 255 the conversions through [float] and
    [Clamp] are defined and exact: below the target the new value is
    [statusAlpha + 5], 255 at most; above it [statusAlpha - 5], 0 at
    least; on the target it does not move. *)
Theorem fade_moves_by_five (statusAlpha targetAlpha : Z) :
  0 <= statusAlpha <= 255 ->
  exists a, fade statusAlpha targetAlpha = Some a /\ 0 <= a <= 255 /\
    a = (if statusAlpha <? targetAlpha then Z.min (statusAlpha + 5) 255
         else if targetAlpha <? statusAlpha then Z.max (statusAlpha - 5) 0
         else statusAlpha).
Proof.
  intros Ha. eexists. split; [apply fade_value, Ha |].
  split; [| reflexivity].
  destruct (statusAlpha <? targetAlpha); [lia |].
  destruct (targetAlpha <? statusAlpha); lia.
Qed.

Lemma fade_moves_by_five_witness :
  exists a, fade 253 255 = Some a /\ 0 <= a <= 255 /\
    a = (if 253 <? 255 then Z.min (253 + 5) 255
         else if 255 <? 253 then Z.max (253 - 5) 0 else 253).
Proof. apply (fade_moves_by_five 253 255). lia. Defined.

Lemma fade_n_toward_255 n : forall a,
  0 <= a <= 255 ->
  fade_n n a 255 = Some (Z.min (a + 5 * Z.of_nat n) 255).
Proof.
  induction n as [| n IH]; intros a Ha; cbn [fade_n].
  - f_equal. lia.
  - rewrite (fade_value a 255 Ha).
    destruct (a <? 255) eqn:E.
    + rewrite IH by lia. f_equal. lia.
    + replace (255 <? a) with false by lia.
      rewrite IH by lia. f_equal. lia.
Qed.

Lemma fade_n_toward_0 n : forall a,
  0 <= a <= 255 ->
  fade_n n a 0 = Some (Z.max (a - 5 * Z.of_nat n) 0).
Proof.
  induction n as [| n IH]; intros a Ha; cbn [fade_n].
  - f_equal. lia.
  - rewrite (fade_value a 0 Ha).
    replace (a <? 0) with false by lia.
    destruct (0 <? a) eqn:E.
    + rewrite IH by lia. f_equal. lia.
    + rewrite IH by lia. f_equal. lia.
Qed.

(** X15. Toward either of the two targets that [main] uses, 0 and 255,
    the fade arrives: from any [statusAlpha] from 0 to 255, after 51
    frames or more with the same target, [statusAlpha] is the target. *)
Theorem fade_reaches_the_target (n : nat) (statusAlpha targetAlpha : Z) :
  0 <= statusAlpha <= 255 ->
  targetAlpha = 0 \/ targetAlpha = 255 ->
  (51 <= n)%nat ->
  fade_n n statusAlpha targetAlpha = Some targetAlpha.
Proof.
  intros Ha [-> | ->] Hn.
  - rewrite fade_n_toward_0 by assumption. f_equal. lia.
  - rewrite fade_n_toward_255 by assumption. f_equal. lia.
Qed.

Lemma fade_reaches_the_target_witness : fade_n 51 0 255 = Some 255.
Proof. apply (fade_reaches_the_target 51 0 255); lia. Defined.

(** With another target the fade could swing around it for ever; [main]
    never sets one. *)
Example fade_swings_around_100 :
  fade 98 100 = Some 103 /\ fade 103 100 = Some 98.
Proof. split; reflexivity. Qed.

Lemma ui_step_ok ui curMouse frameTime :
  ui_ok ui ->
  exists ui', ui_step ui curMouse frameTime = Some ui' /\ ui_ok ui' /\
    lastMouse ui' = curMouse.
Proof.
  intros (Ht & Ha & Hm). unfold ui_step.
  destruct (idle_detect ui curMouse frameTime) as [idle target] eqn:E.
  assert (target = 0 \/ target = 255) as Ht'.
  { unfold idle_detect in E.
    destruct (negb _ || negb _); [injection E as _ <-; left; reflexivity |].
    injection E as _ <-. destruct (fgt _ f1); [right; reflexivity | exact Ht]. }
  rewrite (fade_value _ target Ha).
  eexists. split; [reflexivity |]. split; [| reflexivity].
  split; [exact Ht' |]. cbn [statusAlpha].
  assert (exists q, statusAlpha ui = 5 * q) as [q Hq].
  { exists (statusAlpha ui / 5). apply Z.div_exact; lia. }
  rewrite Hq in *.
  destruct Ht' as [-> | ->].
  - replace (5 * q <? 0) with false by lia.
    destruct (0 <? 5 * q) eqn:E'; [| split; [lia | exact Hm]].
    split; [lia |]. replace (Z.max (5 * q - 5) 0) with (5 * (q - 1)) by lia.
    rewrite Z.mul_comm. apply Z.mod_mul. lia.
  - destruct (5 * q <? 255) eqn:E'.
    + split; [lia |].
      replace (Z.min (5 * q + 5) 255) with (5 * (q + 1)) by lia.
      rewrite Z.mul_comm. apply Z.mod_mul. lia.
    + replace (255 <? 5 * q) with false by lia. split; [lia | exact Hm].
Qed.

(** X16. Through any run of frames from the start of [main], whatever
    the mouse positions and frame times (NaN included), the status bar
    never faults: [targetAlpha] is 0 or 255, [statusAlpha] is a multiple
    of 5 from 0 to 255, so each fade lands exactly on its target and never
    swings around it. *)
Theorem status_bar_stays_in_step (mouse : Vector2.t)
    (frames : list (Vector2.t * float)) :
  exists ui, ui_run (Ui_start mouse) frames = Some ui /\
    (targetAlpha ui = 0 \/ targetAlpha ui = 255) /\
    0 <= statusAlpha ui <= 255 /\
    statusAlpha ui mod 5 = 0.
Proof.
  assert (forall ui, ui_ok ui ->
            exists ui', ui_run ui frames = Some ui' /\ ui_ok ui') as Hrun.
  { induction frames as [| [curMouse frameTime] rest IH]; intros ui Hok.
    - exists ui. split; [reflexivity | exact Hok].
    - cbn [ui_run].
      destruct (ui_step_ok ui curMouse frameTime Hok) as (ui1 & -> & Hok1 & _).
      apply IH, Hok1. }
  destruct (Hrun (Ui_start mouse)) as (ui & Hui & Hok).
  { repeat split; cbn; lia. }
  exists ui. split; [exact Hui | exact Hok].
Qed.

(** ** The pointer *)

Lemma ftrunc_div_by_zero y : ftrunc (fdiv y f0) = None.
Proof. destruct y as [[] | [] | | [] m e]; reflexivity. Qed.

(** X17. With a drawable width or height of 0 the cell under the pointer
    is undefined, for every mouse position: the quotient by
    [(float)0] is an infinity or NaN, which [(int)] cannot convert.  A
    frame with the button down then faults before [AddImpulse], [Step]
    and [RenderToImage] are reached. *)
Theorem pointer_on_an_empty_window (expf : float -> float)
    (powf : float -> float -> float) (curMouse lightDir : Vector2.t)
    (drawW drawH : Z) (w : World) :
  drawW = 0 \/ drawH = 0 ->
  mouse_cell curMouse drawW drawH = None /\
  tick expf powf true curMouse drawW drawH lightDir w = None.
Proof.
  intros Hzero.
  assert (mouse_cell curMouse drawW drawH = None) as Hcell.
  { unfold mouse_cell, to_int. destruct Hzero as [-> | ->].
    - change (of_int 0) with f0. rewrite ftrunc_div_by_zero. reflexivity.
    - change (of_int 0) with f0. rewrite (ftrunc_div_by_zero (fmul _ _)).
      destruct (ftrunc _) as [n |]; [| reflexivity].
      destruct ((- 2 ^ 31 <=? n) && (n <=? 2 ^ 31 - 1)); reflexivity. }
  split; [exact Hcell |].
  unfold tick, click, bind. rewrite Hcell. reflexivity.
Qed.

Lemma pointer_on_an_empty_window_witness :
  mouse_cell (Vector2.mk f4 f1) 0 540 = None /\
  tick RefLibm.expf RefLibm.powf true (Vector2.mk f4 f1) 0 540 light_above
    blank3 = None.
Proof.
  apply (pointer_on_an_empty_window RefLibm.expf RefLibm.powf).
  left. reflexivity.
Defined.

(** ** One frame *)

Lemma agree_on_sim {A} (c : M LiquidSim A) w1 w2 :
  same_but_pixels w1 w2 -> agree (on_sim c w1) (on_sim c w2).
Proof.
  intros [Hs Hl]. unfold on_sim, lift. rewrite Hs.
  destruct (c (sim w2)) as [[a s'] |]; cbn; [| exact I].
  split; [reflexivity |]. split; [reflexivity | exact Hl].
Qed.

Lemma agree_bind {A B} (c : M World A) (k : A -> M World B) w1 w2 :
  agree (c w1) (c w2) ->
  (forall a v1 v2, same_but_pixels v1 v2 -> agree (k a v1) (k a v2)) ->
  agree (bind c k w1) (bind c k w2).
Proof.
  intros Hc Hk. unfold bind.
  destruct (c w1) as [[a1 v1] |], (c w2) as [[a2 v2] |]; cbn in Hc;
    try contradiction; [| exact I].
  destruct Hc as [-> Hv]. apply Hk, Hv.
Qed.

Lemma agree_click expf mouseDown curMouse drawW drawH w1 w2 :
  same_but_pixels w1 w2 ->
  agree (click expf mouseDown curMouse drawW drawH w1)
        (click expf mouseDown curMouse drawW drawH w2).
Proof.
  intros Hw. unfold click.
  destruct mouseDown; [| cbn; auto].
  apply agree_bind.
  - destruct (mouse_cell curMouse drawW drawH); cbn; auto.
  - intros c v1 v2 Hv.
    destruct (click_guard (fst c) (snd c)); [| cbn; auto].
    apply agree_on_sim, Hv.
Qed.

Lemma clear_same c w1 w2 :
  same_but_pixels w1 w2 ->
  ImageClearBackground c w1 = ImageClearBackground c w2.
Proof.
  intros [Hs Hl]. unfold ImageClearBackground, modify, set_pixels.
  rewrite Hs, Hl. reflexivity.
Qed.

(** X18. The frame is made anew at every turn of the loop: what one
    turn leaves in the object and in the image does not depend on the
    pixels the image held before, only on its size.  From two images of
    the same size the turn faults on both or ends on both with the same
    object and, pixel for pixel, the same image. *)
Theorem tick_forgets_the_last_frame (expf : float -> float)
    (powf : float -> float -> float) (mouseDown : bool)
    (curMouse : Vector2.t) (drawW drawH : Z) (lightDir : Vector2.t)
    (s : LiquidSim) (img1 img2 : Image) :
  length img1 = length img2 ->
  tick expf powf mouseDown curMouse drawW drawH lightDir (mkWorld s img1)
  = tick expf powf mouseDown curMouse drawW drawH lightDir (mkWorld s img2).
Proof.
  intros Hlen. unfold tick.
  assert (same_but_pixels (mkWorld s img1) (mkWorld s img2)) as Hw
    by (split; [reflexivity | exact Hlen]).
  pose proof (agree_click expf mouseDown curMouse drawW drawH _ _ Hw) as Hc.
  unfold bind.
  destruct (click expf mouseDown curMouse drawW drawH (mkWorld s img1))
    as [[[] v1] |];
    destruct (click expf mouseDown curMouse drawW drawH (mkWorld s img2))
      as [[[] v2] |]; cbn in Hc; try contradiction; try reflexivity.
  destruct Hc as [_ Hv].
  pose proof (agree_on_sim Step v1 v2 Hv) as Hs.
  destruct (on_sim Step v1) as [[[] u1] |];
    destruct (on_sim Step v2) as [[[] u2] |]; cbn in Hs;
    try contradiction; try reflexivity.
  destruct Hs as [_ Hu]. rewrite (clear_same black u1 u2 Hu). reflexivity.
Qed.

Lemma tick_forgets_the_last_frame_witness :
  tick RefLibm.expf RefLibm.powf false light_above 960 540 light_above
    (mkWorld bump3 (replicate 9 black))
  = tick RefLibm.expf RefLibm.powf false light_above 960 540 light_above
      (mkWorld bump3 (pixels rendered3)).
Proof.
  apply (tick_forgets_the_last_frame RefLibm.expf RefLibm.powf false
           light_above 960 540 light_above bump3).
  reflexivity.
Defined.
